(** * MyEyes prescriber map: pipeline and search/filter engine

    A shallow embedding of the two programs of the repository:

    - the data pipeline [fetch-prescribers.js] (module [Pipeline]), which
      pages through the tagged contacts, builds one record per contact,
      geocodes it and emits the output document;
    - the browser code [public/js/app.js] (module [App]), which loads that
      document and filters it by state, by radius around a zip code and by
      name.  The repository also holds two older copies of the browser
      code, without the name search and without the normalization of the
      state; the embedding follows [public/js/app.js], the copy that is
      deployed.

    Conventions of the embedding.

    - JavaScript strings are [string]s of ASCII text: [trim], [toUpperCase]
      and [toLowerCase] act on the ASCII white space and letters.
    - [null] and [undefined] are [None]; a value is "truthy" as in
      JavaScript: a non-empty string, a number that is neither zero nor NaN.
    - In the pipeline a number is an IEEE double ([float]), as [parseFloat]
      and the JSON of the geocoders deliver it.  In the browser a
      coordinate is a real number: those of the document (JSON cannot hold
      NaN) and those of the zip lookup, whose [lat] and [lon] are taken to
      be numeric; the distance formula is read over the real numbers, that
      is, rounding is not modelled.
    - An [async] function of the pipeline is a computation in the monad
      [M] over the module state, whose results are [Ret v], [Threw msg]
      and [OutOfFuel] (for the one unbounded loop); the network is a
      record of oracles, one per endpoint, so that a request gets the same
      answer whenever it is made.  Console output and the passing of time
      are not modelled, but the delays asked for are recorded. *)

From Stdlib Require Import ZArith List String Ascii Bool Arith Lia.
From Stdlib Require Import Permutation Sorted.
From Stdlib Require Import PrimFloat.
From Stdlib Require Import Reals Lra Machin.
Import ListNotations.

Local Open Scope string_scope.

(* ------------------------------------------------------------------ *)
(** ** The JavaScript built-ins the two programs use *)

Module JS.

(** [Boolean(s)] of a string. *)
Definition truthy (s : string) : bool :=
  match s with EmptyString => false | String _ _ => true end.

(** [Boolean(v)] of a value that is a string, [null] or [undefined]. *)
Definition truthyo (v : option string) : bool :=
  match v with Some s => truthy s | None => false end.

(** [a || b] on such values. *)
Definition or_else (a b : option string) : option string :=
  if truthyo a then a else b.

(** [v || null]. *)
Definition or_null (v : option string) : option string :=
  if truthyo v then v else None.

(** [Boolean(x)] of a number. *)
Definition truthy_num (x : float) : bool :=
  negb (PrimFloat.is_nan x || PrimFloat.is_zero x).

(** [x || null] on a number. *)
Definition num_or_null (x : float) : option float :=
  if truthy_num x then Some x else None.

(** White space and line terminators, in the ASCII range. *)
Definition is_space (c : ascii) : bool :=
  let n := nat_of_ascii c in
  ((9 <=? n) && (n <=? 13) || (n =? 32))%nat.

Definition is_digit (c : ascii) : bool :=
  let n := nat_of_ascii c in ((48 <=? n) && (n <=? 57))%nat.

Definition upper_ascii (c : ascii) : ascii :=
  let n := nat_of_ascii c in
  if ((97 <=? n) && (n <=? 122))%nat then ascii_of_nat (n - 32) else c.

Definition lower_ascii (c : ascii) : ascii :=
  let n := nat_of_ascii c in
  if ((65 <=? n) && (n <=? 90))%nat then ascii_of_nat (n + 32) else c.

Fixpoint map_string (f : ascii -> ascii) (s : string) : string :=
  match s with
  | EmptyString => EmptyString
  | String c r => String (f c) (map_string f r)
  end.

Definition toUpperCase : string -> string := map_string upper_ascii.
Definition toLowerCase : string -> string := map_string lower_ascii.

Fixpoint trimStart (s : string) : string :=
  match s with
  | EmptyString => EmptyString
  | String c r => if is_space c then trimStart r else s
  end.

Definition rev_string (s : string) : string :=
  string_of_list_ascii (rev (list_ascii_of_string s)).

Definition trimEnd (s : string) : string :=
  rev_string (trimStart (rev_string s)).

Definition trim (s : string) : string := trimEnd (trimStart s).

(** [s.startsWith(p)]. *)
Fixpoint startsWith (p s : string) : bool :=
  match p, s with
  | EmptyString, _ => true
  | String a p', String b s' => Ascii.eqb a b && startsWith p' s'
  | String _ _, EmptyString => false
  end.

(** [s.includes(q)]: [q] occurs in [s] as a substring. *)
Fixpoint includes (s q : string) : bool :=
  startsWith q s ||
  match s with
  | EmptyString => false
  | String _ r => includes r q
  end.

(** [parts.join(sep)] on an array of strings. *)
Fixpoint join (sep : string) (parts : list string) : string :=
  match parts with
  | [] => ""
  | [p] => p
  | p :: rest => p ++ sep ++ join sep rest
  end.

(** [arr.filter(Boolean)] on an array of strings and [undefined]s. *)
Fixpoint filter_Boolean (parts : list (option string)) : list string :=
  match parts with
  | [] => []
  | Some s :: rest =>
      if truthy s then s :: filter_Boolean rest else filter_Boolean rest
  | None :: rest => filter_Boolean rest
  end.

(** [arr.slice(0, n)]. *)
Definition slice0 {A} (n : nat) (l : list A) : list A := firstn n l.

(** [arr.sort(cmp)], a stable sort; [before a b] is [cmp(a, b) <= 0]. *)
Fixpoint insert_sorted {A} (before : A -> A -> bool) (x : A)
    (l : list A) : list A :=
  match l with
  | [] => [x]
  | y :: r =>
      if before x y then x :: l else y :: insert_sorted before x r
  end.

Fixpoint sort {A} (before : A -> A -> bool) (l : list A) : list A :=
  match l with
  | [] => []
  | x :: r => insert_sorted before x (sort before r)
  end.

End JS.

(* ------------------------------------------------------------------ *)
(** ** The network and the monad of [async] functions *)

Module Net.

(** What [await fetch(url)] can do: reject, or resolve to a response
    with a status and a body; the body is [None] when [res.json()]
    rejects on it. *)
Inductive response (A : Type) : Type :=
| Rejected
| Response (status : nat) (body : option A).
Arguments Rejected {A}.
Arguments Response {A} status body.

(** [res.ok]: the status is in the range 200-299. *)
Definition ok (status : nat) : bool :=
  ((200 <=? status) && (status <=? 299))%nat.

(** How a computation ends: with a value, with an exception, or not
    within the fuel given to its loops. *)
Inductive result (A : Type) : Type :=
| Ret (a : A)
| Threw (msg : string)
| OutOfFuel.
Arguments Ret {A} a.
Arguments Threw {A} msg.
Arguments OutOfFuel {A}.

Definition returns {A} (r : result A) : bool :=
  match r with Ret _ => true | _ => false end.

End Net.

(* ------------------------------------------------------------------ *)
(** ** The pipeline, [fetch-prescribers.js] *)

Module Pipeline.
Import Net.

(** *** Configuration and data *)

Record config := {
  AC_BASE_URL : option string;
  AC_API_KEY  : option string;
  GOOGLE_KEY  : option string;
  GEOCODER    : string;          (* [process.env.GEOCODER || "nominatim"] *)
  ENRICH      : bool;
  DRY_RUN     : bool }.

Definition BATCH_SIZE : nat := 100.

Inductive field_name :=
| address1 | address2 | city | state | zip | specialty
| doctorFirstName | doctorLastName | practiceName | doctorEmail
| npi | practiceType | prescriberType.

Definition field_name_eqb (a b : field_name) : bool :=
  match a, b with
  | address1, address1 | address2, address2 | city, city | state, state
  | zip, zip | specialty, specialty | doctorFirstName, doctorFirstName
  | doctorLastName, doctorLastName | practiceName, practiceName
  | doctorEmail, doctorEmail | npi, npi | practiceType, practiceType
  | prescriberType, prescriberType => true
  | _, _ => false
  end.

(** [FIELD_MAP[id]] on the numeric field ids of the contact source. *)
Definition FIELD_MAP (id : nat) : option field_name :=
  match id with
  | 4 => Some address1
  | 5 => Some address2
  | 6 => Some city
  | 7 => Some state
  | 8 => Some zip
  | 9 => Some specialty
  | 23 => Some doctorFirstName
  | 24 => Some doctorLastName
  | 25 => Some practiceName
  | 26 => Some doctorEmail
  | 32 => Some npi
  | 61 => Some practiceType
  | 111 => Some prescriberType
  | _ => None
  end%nat.

(** The object [fields]: a property that was never set reads [None]. *)
Definition fields := field_name -> option string.

Definition no_fields : fields := fun _ => None.

Definition set_field (f : fields) (k : field_name) (v : string) : fields :=
  fun k' => if field_name_eqb k' k then Some v else f k'.

Record contact := {
  c_id        : string;
  c_firstName : option string;
  c_lastName  : option string;
  c_email     : option string;
  c_phone     : option string;
  c_orgname   : option string }.

Record contacts_page := {
  pg_contacts   : option (list contact);    (* [data.contacts] *)
  pg_meta_total : option string }.          (* [data.meta?.total] *)

Record field_value := {
  fv_field : nat;
  fv_value : option string }.

(** One result of the free geocoder, its [lat] and [lon] strings as
    [parseFloat] reads them (NaN when they are not numeric). *)
Record nominatim_item := { n_lat : float; n_lon : float }.

Record google_location := { loc_lat : float; loc_lng : float }.

Record google_geocode_body := {
  gg_status  : string;
  gg_results : option (list google_location) }.

Record place := {
  pl_name              : option string;
  pl_formatted_address : option string;
  pl_rating            : option float }.

Record places_body := { pb_results : option (list place) }.

Record geo := { g_lat : float; g_lng : float; g_source : string }.

Record address := {
  street : string;
  a_city  : option string;
  a_state : option string;
  a_zip   : option string;
  full    : option string }.

Record prescriber := {
  id            : string;
  name          : string;
  email         : option string;
  phone         : option string;
  organization  : option string;
  p_specialty   : option string;
  p_practiceType : option string;
  p_npi         : option string;
  addr          : address;
  lat           : option float;
  lng           : option float;
  geoSource     : option string;
  healthSystem  : option string;
  verified      : bool;
  googleAddress : option string }.

Record enrichment := {
  e_healthSystem  : option string;
  e_googleAddress : option string;
  e_verified      : bool;
  e_placeRating   : option float }.

Record output := {
  generated   : string;
  total       : nat;
  geocoded    : nat;
  noAddress   : nat;
  prescribers : list prescriber }.

(** The services the pipeline talks to, and the two built-ins whose
    result depends on the host: the clock and the locale. *)
Record world := {
  ac_contacts    : nat -> response contacts_page;        (* by offset *)
  ac_fieldValues : string -> response (list field_value); (* by contact *)
  nominatim      : string -> response (list nominatim_item);
  google_geocode : string -> response google_geocode_body;
  google_places  : string -> response places_body;
  now            : string;
  localeCompare  : string -> string -> Z }.

(** The module-level state: the geocode call counter, and the delays
    slept so far (in milliseconds). *)
Record pstate := { geocodeCount : nat; slept : list nat }.

Definition initial : pstate := {| geocodeCount := 0; slept := [] |}.

Definition M (A : Type) : Type := pstate -> result (A * pstate).

Definition ret {A} (a : A) : M A := fun s => Ret (a, s).

Definition throw {A} (msg : string) : M A := fun _ => Threw msg.

Definition bind {A B} (m : M A) (k : A -> M B) : M B :=
  fun s =>
    match m s with
    | Ret (a, s') => k a s'
    | Threw msg => Threw msg
    | OutOfFuel => OutOfFuel
    end.

Declare Scope pipeline_scope.
Delimit Scope pipeline_scope with pipeline.
Notation "'await' x '<-' m ';' k" := (bind m (fun x => k))
  (at level 10, x name, m at level 100, k at level 200)
  : pipeline_scope.
Local Open Scope pipeline_scope.

(** [try { m } catch { handler }]. *)
Definition try_catch {A} (m : M A) (handler : string -> M A) : M A :=
  fun s =>
    match m s with
    | Threw msg => handler msg s
    | r => r
    end.

Definition sleep (ms : nat) : M unit :=
  fun s => Ret (tt, {| geocodeCount := geocodeCount s;
                       slept := (slept s ++ [ms])%list |}).

(** [await fetch(...)]. *)
Definition fetch {A} (r : response A) : M (nat * option A) :=
  match r with
  | Rejected => throw "fetch failed"
  | Response status body => ret (status, body)
  end.

(** [await res.json()]. *)
Definition json {A} (body : option A) : M A :=
  match body with
  | Some b => ret b
  | None => throw "Unexpected token in JSON"
  end.

(** *** The contact source *)

(** [acFetch]; the message of its exception, which carries the status
    and the text of the body, is shortened. *)
Definition acFetch {A} (r : response A) : M A :=
  await res <- fetch r;
  if negb (ok (fst res)) then throw "AC API error"
  else json (snd res).

(** [parseInt(s, 10)]; [None] is NaN. *)
Fixpoint digits_value (acc : option Z) (s : string) : option Z :=
  match s with
  | String c r =>
      if JS.is_digit c
      then digits_value
             (Some (10 * match acc with Some a => a | None => 0 end
                    + Z.of_nat (nat_of_ascii c - 48)))%Z r
      else acc
  | EmptyString => acc
  end.

Definition parseInt10 (s : string) : option Z :=
  match JS.trimStart s with
  | String "-"%char r => option_map Z.opp (digits_value None r)
  | String "+"%char r => digits_value None r
  | t => digits_value None t
  end.

(** [all.length >= total]. *)
Definition length_reaches {A} (all : list A) (total : option Z) : bool :=
  match total with
  | Some t => (t <=? Z.of_nat (List.length all))%Z
  | None => false
  end.

(** The [while (true)] loop of [fetchAllPrescribers]; [fuel] bounds the
    number of iterations. *)
Fixpoint fetchAll_loop (w : world) (fuel : nat) (offset : nat)
    (all : list contact) : M (list contact) :=
  match fuel with
  | O => fun _ => OutOfFuel
  | S fuel' =>
      await data <- acFetch (ac_contacts w offset);
      let contacts :=
        match pg_contacts data with Some l => l | None => [] end in
      let all := (all ++ contacts)%list in
      let total :=
        parseInt10
          (match JS.or_else (pg_meta_total data) (Some "0") with
           | Some t => t | None => "0" end) in
      if length_reaches all total || (List.length contacts =? 0)%nat
      then ret all
      else fetchAll_loop w fuel' (offset + BATCH_SIZE) all
  end.

Definition fetchAllPrescribers (w : world) (fuel : nat)
  : M (list contact) :=
  fetchAll_loop w fuel 0 [].

(** The [for] loop of [fetchFieldValues]: unrecognized ids and blank
    values are dropped, a later value of a field replaces an earlier
    one. *)
Definition collect_fields (fieldValues : list field_value) : fields :=
  fold_left
    (fun (fs : fields) (fv : field_value) =>
       match FIELD_MAP (fv_field fv), fv_value fv with
       | Some name, Some v =>
           if JS.truthy v then set_field fs name v else fs
       | _, _ => fs
       end)
    fieldValues no_fields.

Definition fetchFieldValues (w : world) (contactId : string) : M fields :=
  await data <- acFetch (ac_fieldValues w contactId);
  ret (collect_fields data).

(** *** Geocoding *)

(** Reading [geocodeCount], and [geocodeCount++]. *)
Definition getCount : M nat := fun s => Ret (geocodeCount s, s).

Definition bumpCount : M unit :=
  fun s => Ret (tt, {| geocodeCount := S (geocodeCount s);
                       slept := slept s |}).

Definition geocodeNominatim (w : world) (address : string)
  : M (option geo) :=
  await n <- getCount;
  await _ <- (if (0 <? n)%nat then sleep 1100 else ret tt);
  await _ <- bumpCount;
  await res <- fetch (nominatim w address);
  if negb (ok (fst res)) then ret None
  else
    await results <- json (snd res);
    match results with
    | [] => ret None
    | r0 :: _ =>
        ret (Some {| g_lat := n_lat r0; g_lng := n_lon r0;
                     g_source := "nominatim" |})
    end.

Definition geocodeGoogle (w : world) (address : string)
  : M (option geo) :=
  await res <- fetch (google_geocode w address);
  if negb (ok (fst res)) then ret None
  else
    await data <- json (snd res);
    let results :=
      match gg_results data with Some l => l | None => [] end in
    if negb (String.eqb (gg_status data) "OK")
       || (List.length results =? 0)%nat
    then ret None
    else
      match results with
      | loc :: _ =>
          ret (Some {| g_lat := loc_lat loc; g_lng := loc_lng loc;
                       g_source := "google" |})
      | [] => throw "TypeError"
      end.

(** [GEOCODER === "google" && GOOGLE_KEY]. *)
Definition use_google (cfg : config) : bool :=
  String.eqb (GEOCODER cfg) "google" && JS.truthyo (GOOGLE_KEY cfg).

Definition geocode (cfg : config) (w : world) (address : string)
  : M (option geo) :=
  if use_google cfg then geocodeGoogle w address
  else geocodeNominatim w address.

(** *** Enrichment *)

Definition no_enrichment : enrichment :=
  {| e_healthSystem := None; e_googleAddress := None;
     e_verified := false; e_placeRating := None |}.

(** The query of [enrichWithGoogle].  The record it receives has no
    [city] and no [state] property of its own (they are under [address]),
    so both interpolations are empty. *)
Definition places_query (p : prescriber) : string :=
  JS.trim (name p ++ " ophthalmologist " ++ "" ++ " " ++ "").

Definition enrichWithGoogle (cfg : config) (w : world) (p : prescriber)
  : M enrichment :=
  if negb (JS.truthyo (GOOGLE_KEY cfg)) then ret no_enrichment
  else
    let query := places_query p in
    try_catch
      (await res <- fetch (google_places w query);
       if negb (ok (fst res)) then ret no_enrichment
       else
         await data <- json (snd res);
         match pb_results data with
         | Some (place :: _) =>
             ret {| e_healthSystem := JS.or_null (pl_name place);
                    e_googleAddress :=
                      JS.or_null (pl_formatted_address place);
                    e_verified := true;
                    e_placeRating :=
                      match pl_rating place with
                      | Some r => JS.num_or_null r
                      | None => None
                      end |}
         | _ => ret no_enrichment
         end)
      (fun _ => ret no_enrichment).

(** *** Building a record *)

Definition buildAddress (f : fields) : string :=
  JS.join ", "
    (JS.filter_Boolean
       [f address1; f address2; f city; f state; f zip]).

Definition set_enrichment (p : prescriber) (e : enrichment) : prescriber :=
  {| id := id p; name := name p; email := email p; phone := phone p;
     organization := organization p; p_specialty := p_specialty p;
     p_practiceType := p_practiceType p; p_npi := p_npi p;
     addr := addr p; lat := lat p; lng := lng p;
     geoSource := geoSource p;
     healthSystem := e_healthSystem e;
     verified := e_verified e;
     googleAddress :=
       if JS.truthyo (e_googleAddress e) then e_googleAddress e
       else googleAddress p |}.

(** The part of [buildPrescriber] that computes [geo]: the full address
    first, then the zip alone. *)
Definition locate (cfg : config) (w : world) (f : fields)
  : M (option geo) :=
  let fullAddress := buildAddress f in
  if JS.truthy fullAddress then
    await g <- geocode cfg w fullAddress;
    match g, f zip with
    | None, Some z =>
        if JS.truthy z then geocode cfg w (z ++ ", USA") else ret g
    | _, _ => ret g
    end
  else ret None.

(** The object literal of [buildPrescriber]. *)
Definition record_of (contact : contact) (f : fields) (geo : option geo)
  : prescriber :=
  let name :=
    let joined :=
      JS.join " "
        (JS.filter_Boolean
           [JS.or_else (f doctorFirstName) (c_firstName contact);
            JS.or_else (f doctorLastName) (c_lastName contact)]) in
    if JS.truthy joined then joined else "(unknown)" in
  let fullAddress := buildAddress f in
  {| id := c_id contact;
     name := name;
     email := JS.or_null (JS.or_else (f doctorEmail) (c_email contact));
     phone := JS.or_null (c_phone contact);
     organization :=
       JS.or_null (JS.or_else (c_orgname contact) (f practiceName));
     p_specialty :=
       JS.or_null (JS.or_else (f specialty) (f prescriberType));
     p_practiceType := JS.or_null (f practiceType);
     p_npi := JS.or_null (f npi);
     addr :=
       {| street :=
            JS.join ", " (JS.filter_Boolean [f address1; f address2]);
          a_city := JS.or_null (f city);
          a_state := JS.or_null (f state);
          a_zip := JS.or_null (f zip);
          full := JS.or_null (Some fullAddress) |};
     lat := match geo with
            | Some g => JS.num_or_null (g_lat g) | None => None end;
     lng := match geo with
            | Some g => JS.num_or_null (g_lng g) | None => None end;
     geoSource := match geo with
                  | Some g => JS.or_null (Some (g_source g))
                  | None => None end;
     healthSystem := None;
     verified := false;
     googleAddress := None |}.

Definition buildPrescriber (cfg : config) (w : world)
    (contact : contact) (f : fields) : M prescriber :=
  await geo <- locate cfg w f;
  let prescriber := record_of contact f geo in
  if ENRICH cfg then
    await e <- enrichWithGoogle cfg w prescriber;
    ret (set_enrichment prescriber e)
  else ret prescriber.

(** *** The run *)

(** [Boolean(x)] of a coordinate of a record. *)
Definition has_num (x : option float) : bool :=
  match x with Some v => JS.truthy_num v | None => false end.

(** The two counters after one more record: the [if] / [else if] of the
    loop of [main]. *)
Definition count (p : prescriber) (counters : nat * nat) : nat * nat :=
  let (geocoded, skipped) := counters in
  if has_num (lat p) && has_num (lng p) then (S geocoded, skipped)
  else if negb (JS.truthyo (full (addr p))) then (geocoded, S skipped)
  else (geocoded, skipped).

(** The [for] loop of [main] from contact [i] on. *)
Fixpoint process (cfg : config) (w : world) (contacts : list contact)
    (prescribers : list prescriber) (counters : nat * nat)
  : M (list prescriber * (nat * nat)) :=
  match contacts with
  | [] => ret (prescribers, counters)
  | contact :: rest =>
      await f <- fetchFieldValues w (c_id contact);
      await p <- buildPrescriber cfg w contact f;
      process cfg w rest (prescribers ++ [p])%list (count p counters)
  end.

Definition OUTPUT_PATH : string := "data/prescribers.json".
Definition PUBLIC_OUTPUT : string := "public/prescribers.json".

(** What a run that reaches its end leaves: the document, and the files
    written (none in a dry run). *)
Record outcome := {
  document : output;
  written  : list (string * output) }.

(** [main]; a [Threw] of [main] is what the last line of the script
    turns into "Fatal" and exit code 1, as is the missing-credentials
    exit. *)
Definition main (cfg : config) (w : world) (fuel : nat) : M outcome :=
  if negb (JS.truthyo (AC_BASE_URL cfg)) || negb (JS.truthyo (AC_API_KEY cfg))
  then throw "Missing ACTIVECAMPAIGN_URL or ACTIVECAMPAIGN_API_KEY in .env"
  else
    await contacts <- fetchAllPrescribers w fuel;
    await r <- process cfg w contacts [] (0, 0)%nat;
    let prescribers := fst r in
    let geocoded := fst (snd r) in
    let skipped := snd (snd r) in
    let out :=
      {| generated := now w;
         total := List.length prescribers;
         geocoded := geocoded;
         noAddress := skipped;
         prescribers :=
           JS.sort (fun a b => (localeCompare w (name a) (name b) <=? 0)%Z)
                prescribers |} in
    if DRY_RUN cfg then ret {| document := out; written := [] |}
    else ret {| document := out;
                written := [(OUTPUT_PATH, out); (PUBLIC_OUTPUT, out)] |}.

(** *** Vocabulary of the properties *)

(** The body of the [k]-th page of contacts, when [acFetch] returns it. *)
Definition page_data (w : world) (k : nat) : option contacts_page :=
  match ac_contacts w (k * BATCH_SIZE) with
  | Response status (Some data) => if ok status then Some data else None
  | _ => None
  end.

Definition page_contacts (w : world) (k : nat) : list contact :=
  match page_data w k with
  | Some data => match pg_contacts data with Some l => l | None => [] end
  | None => []
  end.

(** The total that the [k]-th page reports, as [parseInt] reads it. *)
Definition page_total (w : world) (k : nat) : option Z :=
  match page_data w k with
  | Some data =>
      parseInt10
        (match JS.or_else (pg_meta_total data) (Some "0") with
         | Some t => t | None => "0" end)
  | None => None
  end.

(** The contacts of the pages before the [k]-th. *)
Fixpoint gathered (w : world) (k : nat) : list contact :=
  match k with
  | O => []
  | S k' => (gathered w k' ++ page_contacts w k')%list
  end.

(** The [k]-th page is empty, or brings the count to the total that it
    reports. *)
Definition last_page (w : world) (k : nat) : bool :=
  length_reaches (gathered w (S k)) (page_total w k)
  || (List.length (page_contacts w k) =? 0)%nat.

(** A response on which a call resolves: one that is not rejected and,
    when its status is a success, has a body that parses. *)
Definition answers {A} (r : response A) : bool :=
  match r with
  | Rejected => false
  | Response status body =>
      negb (ok status) || match body with Some _ => true | None => false end
  end.

(** A response on which [acFetch] returns. *)
Definition fetched {A} (r : response A) : bool :=
  match r with
  | Response status (Some _) => ok status
  | _ => false
  end.

(** A non-success status, or an empty result set, of the free geocoder. *)
Definition nominatim_failed (r : response (list nominatim_item)) : bool :=
  match r with
  | Rejected => false
  | Response status body =>
      negb (ok status)
      || match body with Some [] => true | _ => false end
  end.

(** The same of the paid geocoder. *)
Definition google_failed (r : response google_geocode_body) : bool :=
  match r with
  | Rejected => false
  | Response status body =>
      negb (ok status)
      || match body with
         | Some data =>
             match gg_results data with
             | Some (_ :: _) => false
             | _ => true
             end
         | None => false
         end
  end.

(** The geocoder in use reports a failure for the address. *)
Definition reports_failure (cfg : config) (w : world) (address : string)
  : bool :=
  if use_google cfg then google_failed (google_geocode w address)
  else nominatim_failed (nominatim w address).

(** The geocoder in use answers for the address. *)
Definition geocoder_answers (cfg : config) (w : world) (address : string)
  : bool :=
  if use_google cfg then answers (google_geocode w address)
  else answers (nominatim w address).

(** The places lookup fails in any way, or finds nothing. *)
Definition places_failed (r : response places_body) : bool :=
  match r with
  | Rejected => true
  | Response status body =>
      negb (ok status)
      || match body with
         | Some data =>
             match pb_results data with
             | Some (_ :: _) => false
             | _ => true
             end
         | None => true
         end
  end.

(** What the two counters count. *)
Definition is_geocoded (p : prescriber) : bool :=
  has_num (lat p) && has_num (lng p).

Definition is_noAddress (p : prescriber) : bool :=
  negb (is_geocoded p) && negb (JS.truthyo (full (addr p))).

(** The module state after one call of the free geocoder. *)
Definition after_nominatim (s : pstate) : pstate :=
  {| geocodeCount := S (geocodeCount s);
     slept := if (0 <? geocodeCount s)%nat
              then (slept s ++ [1100%nat])%list else slept s |}.

(** The two counters over a list of records. *)
Definition tally (ps : list prescriber) (counters : nat * nat)
  : nat * nat :=
  fold_left (fun c p => count p c) ps counters.

(** The account of the delays: the delays slept are of 1100 ms each,
    one for every call counted of the free geocoder but the first. *)
Definition paced (s : pstate) : Prop :=
  slept s = repeat 1100%nat (pred (geocodeCount s)).

(** A string field that is either [null] or not empty. *)
Definition nonblank (v : option string) : Prop := v <> Some "".

(** The five parts of the address, in the order of [buildAddress]. *)
Definition address_parts (f : fields) : list (option string) :=
  [f address1; f address2; f city; f state; f zip].

(** The order of the names that [localeCompare] decides. *)
Definition name_le (w : world) (a b : prescriber) : Prop :=
  (localeCompare w (name a) (name b) <= 0)%Z.

(** The configuration with the [--dry-run] flag set or cleared. *)
Definition with_dry_run (dry : bool) (cfg : config) : config :=
  {| AC_BASE_URL := AC_BASE_URL cfg; AC_API_KEY := AC_API_KEY cfg;
     GOOGLE_KEY := GOOGLE_KEY cfg; GEOCODER := GEOCODER cfg;
     ENRICH := ENRICH cfg; DRY_RUN := dry |}.

End Pipeline.

(* ------------------------------------------------------------------ *)
(** ** The browser code, [public/js/app.js] *)

Module App.

Record address := {
  street : option string;
  city   : option string;
  state  : option string;
  zip    : option string;
  full   : option string }.

(** A record of the loaded document; [distance] is the field that
    [doSearch] adds, absent ([None]) on the records as loaded. *)
Record prescriber := {
  id           : string;
  name         : option string;
  email        : option string;
  phone        : option string;
  organization : option string;
  specialty    : option string;
  practiceType : option string;
  npi          : option string;
  addr         : address;
  lat          : option R;
  lng          : option R;
  geoSource    : option string;
  healthSystem : option string;
  verified     : bool;
  distance     : option R }.

(** [STATE_CODES]: state name to 2-letter code.  Every key is in upper
    case, so no inherited property of the object can be hit by the
    upper-cased lookup of [normalizeState]. *)
Definition STATE_CODES : list (string * string) :=
  [ ("ALABAMA","AL"); ("ALASKA","AK"); ("ARIZONA","AZ"); ("ARKANSAS","AR");
    ("CALIFORNIA","CA"); ("COLORADO","CO"); ("CONNECTICUT","CT");
    ("DELAWARE","DE"); ("FLORIDA","FL"); ("GEORGIA","GA"); ("HAWAII","HI");
    ("IDAHO","ID"); ("ILLINOIS","IL"); ("INDIANA","IN"); ("IOWA","IA");
    ("KANSAS","KS"); ("KENTUCKY","KY"); ("LOUISIANA","LA"); ("MAINE","ME");
    ("MARYLAND","MD"); ("MASSACHUSETTS","MA"); ("MICHIGAN","MI");
    ("MINNESOTA","MN"); ("MISSISSIPPI","MS"); ("MISSOURI","MO");
    ("MONTANA","MT"); ("NEBRASKA","NE"); ("NEVADA","NV");
    ("NEW HAMPSHIRE","NH"); ("NEW JERSEY","NJ"); ("NEW MEXICO","NM");
    ("NEW YORK","NY"); ("NORTH CAROLINA","NC"); ("NORTH DAKOTA","ND");
    ("OHIO","OH"); ("OKLAHOMA","OK"); ("OREGON","OR");
    ("PENNSYLVANIA","PA"); ("RHODE ISLAND","RI"); ("SOUTH CAROLINA","SC");
    ("SOUTH DAKOTA","SD"); ("TENNESSEE","TN"); ("TEXAS","TX"); ("UTAH","UT");
    ("VERMONT","VT"); ("VIRGINIA","VA"); ("WASHINGTON","WA");
    ("WEST VIRGINIA","WV"); ("WISCONSIN","WI"); ("WYOMING","WY");
    ("DISTRICT OF COLUMBIA","DC") ].

(** [new Set(Object.values(STATE_CODES))]. *)
Definition VALID_CODES : list string := map snd STATE_CODES.

Definition has (set : list string) (s : string) : bool :=
  existsb (String.eqb s) set.

(** [STATE_CODES[key]]. *)
Fixpoint lookup (key : string) (table : list (string * string))
  : option string :=
  match table with
  | [] => None
  | (k, v) :: rest => if String.eqb key k then Some v else lookup key rest
  end.

Definition normalizeState (raw : option string) : option string :=
  if negb (JS.truthyo raw) then None
  else
    match raw with
    | None => None
    | Some r =>
        let upper := JS.toUpperCase (JS.trim r) in
        if has VALID_CODES upper then Some upper
        else if JS.truthyo (lookup upper STATE_CODES)
             then lookup upper STATE_CODES
             else None
    end.

(** [normalizeState(p.address?.state) === state], [state] a string. *)
Definition state_matches (st : string) (p : prescriber) : bool :=
  match normalizeState (state (addr p)) with
  | Some c => String.eqb c st
  | None => false
  end.

(** [getFilteredPrescribers()], the value of the state drop-down and
    the loaded list made explicit. *)
Definition getFilteredPrescribers
    (allPrescribers : list prescriber) (stateFilter : string)
  : list prescriber :=
  if negb (JS.truthy stateFilter) then allPrescribers
  else filter (state_matches stateFilter) allPrescribers.

(** [[...new Set(arr)]]: the first occurrence of each value, in order. *)
Fixpoint unique (seen : list string) (l : list string) : list string :=
  match l with
  | [] => []
  | x :: r =>
      if has seen x then unique seen r else x :: unique (x :: seen) r
  end.

(** The values of the options that [populateStateFilter] adds to the
    state drop-down ([sort()] without a comparator orders strings by
    their code units). *)
Definition populateStateFilter (allPrescribers : list prescriber)
  : list string :=
  JS.sort String.leb
    (unique []
       (JS.filter_Boolean
          (map (fun p => normalizeState (state (addr p))) allPrescribers))).

(** *** Name search *)

(** [p.name && p.name.toLowerCase().includes(query)]. *)
Definition name_matches (query : string) (p : prescriber) : bool :=
  match name p with
  | Some n => JS.truthy n && JS.includes (JS.toLowerCase n) query
  | None => false
  end.

Definition MIN_QUERY : nat := 2.
Definition MAX_MATCHES : nat := 20.

(** The drop-down under the name box. *)
Inductive dropdown :=
| Hidden
| Shown (matches : list prescriber).

(** The [input] listener of [initDoctorSearch], on the current value of
    the box. *)
Definition doctorSearch (allPrescribers : list prescriber)
    (value : string) : dropdown :=
  let query := JS.toLowerCase (JS.trim value) in
  if (String.length query <? MIN_QUERY)%nat then Hidden
  else Shown (JS.slice0 MAX_MATCHES
                (filter (name_matches query) allPrescribers)).

(** The drop-down after a series of [input] events, one per change of
    the box, given the successive values of the box. *)
Definition afterInputs (allPrescribers : list prescriber)
    (values : list string) (shownBefore : dropdown) : dropdown :=
  fold_left (fun _ value => doctorSearch allPrescribers value)
            values shownBefore.

(** *** Distance *)

Local Open Scope R_scope.

Definition toRad (deg : R) : R := deg * PI / 180.

(** [Math.atan2(y, x)]. *)
Definition atan2 (y x : R) : R :=
  if Rlt_dec 0 x then atan (y / x)
  else if Rlt_dec x 0 then
    if Rle_dec 0 y then atan (y / x) + PI else atan (y / x) - PI
  else if Rlt_dec 0 y then PI / 2
  else if Rlt_dec y 0 then - (PI / 2)
  else 0.

Definition haversine (lat1 lon1 lat2 lon2 : R) : R :=
  let R := 3959 in
  let dLat := toRad (lat2 - lat1) in
  let dLon := toRad (lon2 - lon1) in
  let a :=
    sin (dLat / 2) ^ 2
    + cos (toRad lat1) * cos (toRad lat2) * sin (dLon / 2) ^ 2 in
  R * 2 * atan2 (sqrt a) (sqrt (1 - a)).

(** [Boolean(x)] of a coordinate: a number other than zero. *)
Definition truthy_num (x : option R) : bool :=
  match x with
  | Some r => if Req_dec_T r 0 then false else true
  | None => false
  end.

(** A coordinate in arithmetic: [null] counts as zero. *)
Definition num (x : option R) : R :=
  match x with Some r => r | None => 0 end.

(** [p.lat && p.lng]. *)
Definition has_coords (p : prescriber) : bool :=
  truthy_num (lat p) && truthy_num (lng p).

(** [{...p, distance: haversine(searchLat, searchLng, p.lat, p.lng)}]. *)
Definition with_distance (searchLat searchLng : R) (p : prescriber)
  : prescriber :=
  {| id := id p; name := name p; email := email p; phone := phone p;
     organization := organization p; specialty := specialty p;
     practiceType := practiceType p; npi := npi p; addr := addr p;
     lat := lat p; lng := lng p; geoSource := geoSource p;
     healthSystem := healthSystem p; verified := verified p;
     distance :=
       Some (haversine searchLat searchLng (num (lat p)) (num (lng p))) |}.

(** [p.distance <= radiusMiles]. *)
Definition within (radiusMiles : Z) (p : prescriber) : bool :=
  match distance p with
  | Some d => if Rle_dec d (IZR radiusMiles) then true else false
  | None => false
  end.

(** [a.distance - b.distance <= 0]; a difference that is not a number
    counts as zero in [sort]. *)
Definition by_distance (a b : prescriber) : bool :=
  match distance a, distance b with
  | Some x, Some y => if Rle_dec (x - y) 0 then true else false
  | _, _ => true
  end.

(** The list [nearby] of [doSearch]. *)
Definition nearby (base : list prescriber) (searchLat searchLng : R)
    (radiusMiles : Z) : list prescriber :=
  JS.sort by_distance
    (filter (within radiusMiles)
       (map (with_distance searchLat searchLng)
          (filter has_coords base))).

(** *** The page state and its handlers *)

Record circle := {
  circle_lat : R; circle_lng : R; circle_radius : R }.

Inductive view :=
| SetView (vlat vlng : R) (zoom : nat)
| FitBounds (points : list (R * R))
| FitCircle (c : circle).

Inductive count_text :=
| Blank
| InState (n : nat) (st : string)
| Within (n : nat) (radiusMiles : Z) (zip : string)
| Selected (who : option string).

(** The variables of the closure and the parts of the page the handlers
    read or write.  [shown] and [shownFiltered] are the arguments of the
    last call of [showPrescribers]; [radiusSelect] is the selected radius
    as [parseInt] reads it. *)
Record page := {
  allPrescribers : list prescriber;
  stateFilter    : string;
  zipInput       : string;
  radiusSelect   : Z;
  searchLat      : option R;
  searchLng      : option R;
  searchCircle   : option circle;
  shown          : list prescriber;
  shownFiltered  : bool;
  zipMarkers     : list (R * R * string);
  mapView        : view;
  resultCount    : count_text;
  alerts         : list string }.

(** What [showPrescribers] draws of its argument. *)
Definition markers (st : page) : list prescriber :=
  filter has_coords (shown st).

Definition displayList (st : page) : list prescriber :=
  if shownFiltered st then shown st else JS.slice0 100 (shown st).

Definition DEFAULT_VIEW : view := SetView 39.8 (-98.5) 4.

(** [alert(msg)]. *)
Definition alert (msg : string) (st : page) : page :=
  {| allPrescribers := allPrescribers st; stateFilter := stateFilter st;
     zipInput := zipInput st; radiusSelect := radiusSelect st;
     searchLat := searchLat st; searchLng := searchLng st;
     searchCircle := searchCircle st; shown := shown st;
     shownFiltered := shownFiltered st; zipMarkers := zipMarkers st;
     mapView := mapView st; resultCount := resultCount st;
     alerts := (alerts st ++ [msg])%list |}.

Record zip_item := { z_lat : R; z_lon : R }.

(** [geocodeZip]: everything that goes wrong is [null]. *)
Definition geocodeZip (net : string -> Net.response (list zip_item))
    (zip : string) : option (R * R) :=
  match net zip with
  | Net.Rejected => None
  | Net.Response status body =>
      if negb (Net.ok status) then None
      else
        match body with
        | None => None
        | Some [] => None
        | Some (r0 :: _) => Some (z_lat r0, z_lon r0)
        end
  end.

(** [/^\d{5}$/.test(zip)]. *)
Definition valid_zip (zip : string) : bool :=
  (String.length zip =? 5)%nat
  && forallb JS.is_digit (list_ascii_of_string zip).

(** [doSearch] up to its [await]: either it has alerted and returned, or
    it waits for the geocoder with the zip and the radius it has read. *)
Definition doSearch_begin (st : page) : page + (string * Z) :=
  let zip := JS.trim (zipInput st) in
  if negb (valid_zip zip)
  then inl (alert "Please enter a valid 5-digit zip code." st)
  else inr (zip, radiusSelect st).

(** [doSearch] from the answer of the geocoder on, in the state of the
    page at that moment. *)
Definition doSearch_resume (zip : string) (radiusMiles : Z)
    (geo : option (R * R)) (st : page) : page :=
  match geo with
  | None => alert ("Could not find location for zip code: " ++ zip) st
  | Some (glat, glng) =>
      let base := getFilteredPrescribers (allPrescribers st)
                                         (stateFilter st) in
      let near := nearby base glat glng radiusMiles in
      let c := {| circle_lat := glat; circle_lng := glng;
                  circle_radius := IZR radiusMiles * 1609.34 |} in
      {| allPrescribers := allPrescribers st;
         stateFilter := stateFilter st;
         zipInput := zipInput st; radiusSelect := radiusSelect st;
         searchLat := Some glat; searchLng := Some glng;
         searchCircle := Some c;
         shown := near; shownFiltered := true;
         zipMarkers := (zipMarkers st ++ [(glat, glng, zip)])%list;
         mapView := FitCircle c;
         resultCount := Within (List.length near) radiusMiles zip;
         alerts := alerts st |}
  end.

(** A search that no other handler interleaves with. *)
Definition doSearch (net : string -> Net.response (list zip_item))
    (st : page) : page :=
  match doSearch_begin st with
  | inl st' => st'
  | inr (zip, radiusMiles) =>
      doSearch_resume zip radiusMiles (geocodeZip net zip) st
  end.

Definition applyStateFilter (st : page) : page :=
  let filtered := getFilteredPrescribers (allPrescribers st)
                                         (stateFilter st) in
  let active := JS.truthy (stateFilter st) in
  {| allPrescribers := allPrescribers st; stateFilter := stateFilter st;
     zipInput := zipInput st; radiusSelect := radiusSelect st;
     searchLat := None; searchLng := None; searchCircle := None;
     shown := filtered; shownFiltered := active;
     zipMarkers := zipMarkers st;
     mapView :=
       if active then
         match filter has_coords filtered with
         | [] => mapView st
         | withCoords =>
             FitBounds (map (fun p => (num (lat p), num (lng p)))
                            withCoords)
         end
       else DEFAULT_VIEW;
     resultCount :=
       if active then InState (List.length filtered) (stateFilter st)
       else Blank;
     alerts := alerts st |}.

Definition clearSearch (st : page) : page :=
  {| allPrescribers := allPrescribers st; stateFilter := "";
     zipInput := ""; radiusSelect := radiusSelect st;
     searchLat := None; searchLng := None; searchCircle := None;
     shown := allPrescribers st; shownFiltered := false;
     zipMarkers := zipMarkers st;
     mapView := DEFAULT_VIEW; resultCount := Blank;
     alerts := alerts st |}.

Definition selectDoctor (p : prescriber) (st : page) : page :=
  if negb (has_coords p)
  then alert "This doctor does not have a mapped location." st
  else
    {| allPrescribers := allPrescribers st; stateFilter := "";
       zipInput := ""; radiusSelect := radiusSelect st;
       searchLat := None; searchLng := None; searchCircle := None;
       shown := allPrescribers st; shownFiltered := false;
       zipMarkers := zipMarkers st;
       mapView := SetView (num (lat p)) (num (lng p)) 15;
       resultCount := Selected (name p);
       alerts := alerts st |}.

(** *** Vocabulary of the properties *)

(** Ascending distance, on records that carry one. *)
Definition distance_le (a b : prescriber) : Prop :=
  num (distance a) <= num (distance b).

Definition has_distance (p : prescriber) : Prop := distance p <> None.

(** The list before sorting. *)
Definition in_radius (base : list prescriber) (la lo : R) (r : Z)
  : list prescriber :=
  filter (within r) (map (with_distance la lo) (filter has_coords base)).

(** *** The labels of the state options *)

(** [obj[key] = value] on an object used as a table: a key that is there
    keeps its place. *)
Fixpoint assign (table : list (string * string)) (key value : string)
  : list (string * string) :=
  match table with
  | [] => [(key, value)]
  | (k, v) :: rest =>
      if String.eqb key k then (k, value) :: rest
      else (k, v) :: assign rest key value
  end.

(** The table [codeToName] of [populateStateFilter]: for each entry of
    [STATE_CODES], in order, [codeToName[code] = name]. *)
Definition codeToName : list (string * string) :=
  fold_left (fun table entry => assign table (snd entry) (fst entry))
            STATE_CODES [].

(** *** The events of the page *)

Definition set_stateFilter (value : string) (st : page) : page :=
  {| allPrescribers := allPrescribers st; stateFilter := value;
     zipInput := zipInput st; radiusSelect := radiusSelect st;
     searchLat := searchLat st; searchLng := searchLng st;
     searchCircle := searchCircle st; shown := shown st;
     shownFiltered := shownFiltered st; zipMarkers := zipMarkers st;
     mapView := mapView st; resultCount := resultCount st;
     alerts := alerts st |}.

Definition set_zipInput (value : string) (st : page) : page :=
  {| allPrescribers := allPrescribers st; stateFilter := stateFilter st;
     zipInput := value; radiusSelect := radiusSelect st;
     searchLat := searchLat st; searchLng := searchLng st;
     searchCircle := searchCircle st; shown := shown st;
     shownFiltered := shownFiltered st; zipMarkers := zipMarkers st;
     mapView := mapView st; resultCount := resultCount st;
     alerts := alerts st |}.

Definition set_radiusSelect (radiusMiles : Z) (st : page) : page :=
  {| allPrescribers := allPrescribers st; stateFilter := stateFilter st;
     zipInput := zipInput st; radiusSelect := radiusMiles;
     searchLat := searchLat st; searchLng := searchLng st;
     searchCircle := searchCircle st; shown := shown st;
     shownFiltered := shownFiltered st; zipMarkers := zipMarkers st;
     mapView := mapView st; resultCount := resultCount st;
     alerts := alerts st |}.

(** The page once [initMap] and [loadData] are done with a document that
    holds the list [prescribers]; [radiusMiles] is the radius that the
    page preselects. *)
Definition loaded (prescribers : list prescriber) (radiusMiles : Z)
  : page :=
  {| allPrescribers := prescribers; stateFilter := ""; zipInput := "";
     radiusSelect := radiusMiles;
     searchLat := None; searchLng := None; searchCircle := None;
     shown := prescribers; shownFiltered := false; zipMarkers := [];
     mapView := DEFAULT_VIEW; resultCount := Blank; alerts := [] |}.

(** What the user and the network can do to the page, by the listeners
    of [bindEvents] and [initDoctorSearch].  A search is either one that
    runs to its end before anything else happens ([SearchClicked]), or
    the continuation of an earlier search, with the zip and the radius it
    had read, that comes after other events ([SearchResumed]). *)
Inductive event :=
| StateChanged (value : string)
| ZipTyped (value : string)
| RadiusPicked (radiusMiles : Z)
| SearchClicked (net : string -> Net.response (list zip_item))
| SearchResumed (zip : string) (radiusMiles : Z) (geo : option (R * R))
| ClearClicked
| DoctorPicked (p : prescriber).

Definition handle (e : event) (st : page) : page :=
  match e with
  | StateChanged value => applyStateFilter (set_stateFilter value st)
  | ZipTyped value => set_zipInput value st
  | RadiusPicked radiusMiles => set_radiusSelect radiusMiles st
  | SearchClicked net => doSearch net st
  | SearchResumed zip radiusMiles geo =>
      doSearch_resume zip radiusMiles geo st
  | ClearClicked => clearSearch st
  | DoctorPicked p => selectDoctor p st
  end.

Definition run (events : list event) (st : page) : page :=
  fold_left (fun st e => handle e st) events st.

(** What holds of the page between events. *)
Record consistent (st : page) : Prop := {
  coords_together : searchLat st = None <-> searchLng st = None;
  circle_with_coords : searchCircle st = None <-> searchLat st = None;
  unfiltered_is_all : shownFiltered st = false ->
                      shown st = allPrescribers st;
  shown_are_loaded :
    forall q, In q (shown st) ->
      exists p, In p (allPrescribers st)
                /\ (q = p \/ exists la lo, q = with_distance la lo p);
  shown_are_of_state :
    stateFilter st <> "" ->
    forall q, In q (shown st) ->
      normalizeState (state (addr q)) = Some (stateFilter st) }.

End App.

(* ------------------------------------------------------------------ *)
(** ** Sample inputs *)

Module Samples.
Import Net Pipeline.

Definition ada : contact :=
  {| c_id := "1"; c_firstName := Some "Ada"; c_lastName := Some "Smith";
     c_email := Some "ada@example.org"; c_phone := None;
     c_orgname := None |}.

Definition bo : contact :=
  {| c_id := "2"; c_firstName := Some "Bo"; c_lastName := Some "Adams";
     c_email := None; c_phone := Some "555-0100"; c_orgname := None |}.

Definition field (k : nat) (v : string) : field_value :=
  {| fv_field := k; fv_value := Some v |}.

Definition ada_fields : list field_value :=
  [field 4 "3400 Spruce St"; field 6 "Philadelphia"; field 7 "PA";
   field 8 "19104"; field 9 "Ophthalmology"].

Definition by_code (a b : string) : Z :=
  match String.compare a b with Lt => (-1)%Z | Eq => 0%Z | Gt => 1%Z end.

Definition cfg_free : config :=
  {| AC_BASE_URL := Some "example.activehosted.com";
     AC_API_KEY := Some "token"; GOOGLE_KEY := None;
     GEOCODER := "nominatim"; ENRICH := true; DRY_RUN := false |}.

Definition cfg_paid : config :=
  {| AC_BASE_URL := Some "example.activehosted.com";
     AC_API_KEY := Some "token"; GOOGLE_KEY := Some "key";
     GEOCODER := "google"; ENRICH := false; DRY_RUN := false |}.

(** Two contacts on a first page that reports a total of 500, and empty
    pages after it. *)
Definition two_contacts (offset : nat) : response contacts_page :=
  Response 200
    (Some {| pg_contacts :=
               Some (if (offset =? 0)%nat then [ada; bo] else []);
             pg_meta_total := Some "500" |}).

Definition field_values (contactId : string)
  : response (list field_value) :=
  Response 200
    (Some (if String.eqb contactId "1" then ada_fields else [])).

(** Every geocoder and the places lookup are out of service. *)
Definition geocoders_down : world :=
  {| ac_contacts := two_contacts;
     ac_fieldValues := field_values;
     nominatim := fun _ => Response 503 None;
     google_geocode := fun _ => Response 503 None;
     google_places := fun _ => Rejected;
     now := "2024-05-01T12:00:00.000Z";
     localeCompare := by_code |}.

(** The field values of the first contact cannot be fetched. *)
Definition field_values_down : world :=
  {| ac_contacts := two_contacts;
     ac_fieldValues :=
       fun contactId =>
         if String.eqb contactId "1" then Response 500 None
         else field_values contactId;
     nominatim := fun _ => Response 200 (Some []);
     google_geocode := fun _ => Response 503 None;
     google_places := fun _ => Rejected;
     now := "2024-05-01T12:00:00.000Z";
     localeCompare := by_code |}.

(** The paid geocoder places an address on the prime meridian. *)
Definition on_the_meridian : world :=
  {| ac_contacts := two_contacts;
     ac_fieldValues := field_values;
     nominatim := fun _ => Response 200 (Some []);
     google_geocode :=
       fun _ =>
         Response 200
           (Some {| gg_status := "OK";
                    gg_results :=
                      Some [ {| loc_lat := 51.5%float;
                                loc_lng := 0%float |} ] |});
     google_places := fun _ => Rejected;
     now := "2024-05-01T12:00:00.000Z";
     localeCompare := by_code |}.

Definition meridian_fields : fields :=
  set_field
    (set_field (set_field no_fields address1 "Blackheath Ave")
               city "London")
    zip "SE10 8XJ".

(** The free geocoder cannot be reached: the request is rejected. *)
Definition unreachable : world :=
  {| ac_contacts := two_contacts;
     ac_fieldValues := field_values;
     nominatim := fun _ => Rejected;
     google_geocode := fun _ => Rejected;
     google_places := fun _ => Rejected;
     now := "2024-05-01T12:00:00.000Z";
     localeCompare := by_code |}.

(** Pages of one contact each, that never report a total. *)
Definition endless : world :=
  {| ac_contacts :=
       fun _ =>
         Response 200
           (Some {| pg_contacts := Some [ada];
                    pg_meta_total := Some "many" |});
     ac_fieldValues := field_values;
     nominatim := fun _ => Response 200 (Some []);
     google_geocode := fun _ => Response 503 None;
     google_places := fun _ => Rejected;
     now := "2024-05-01T12:00:00.000Z";
     localeCompare := by_code |}.

(** Pages of one contact each, none of which carries a total. *)
Definition untold : world :=
  {| ac_contacts :=
       fun _ =>
         Response 200
           (Some {| pg_contacts := Some [ada]; pg_meta_total := None |});
     ac_fieldValues := field_values;
     nominatim := fun _ => Response 200 (Some []);
     google_geocode := fun _ => Response 503 None;
     google_places := fun _ => Rejected;
     now := "2024-05-01T12:00:00.000Z";
     localeCompare := by_code |}.

End Samples.

Module PageSamples.
Import App.
Local Open Scope R_scope.

Definition doctor (who : string) (st : option string)
    (la lo : option R) : prescriber :=
  {| id := who; name := Some who; email := None; phone := None;
     organization := None; specialty := None; practiceType := None;
     npi := None;
     addr := {| street := None; city := None; state := st; zip := None;
                full := None |};
     lat := la; lng := lo; geoSource := None; healthSystem := None;
     verified := false; distance := None |}.

Definition ann : prescriber :=
  doctor "Ann Smith" (Some "California") (Some 34) (Some (-118)).
Definition ben : prescriber :=
  doctor "Ben Smithson" (Some "CA") None None.
Definition cyd : prescriber :=
  doctor "Cyd Roy" (Some "Ontario") (Some 34) (Some (-118)).

Definition roster : list prescriber := [ann; ben; cyd].

(** The zip service knows one zip. *)
Definition zip_service (zip : string) : Net.response (list zip_item) :=
  if String.eqb zip "90012"
  then Net.Response 200 (Some [ {| z_lat := 34; z_lon := -118 |} ])
  else Net.Response 200 (Some []).

Definition typed (zip : string) : page :=
  {| allPrescribers := roster; stateFilter := "CA"; zipInput := zip;
     radiusSelect := 10;
     searchLat := None; searchLng := None; searchCircle := None;
     shown := roster; shownFiltered := false; zipMarkers := [];
     mapView := DEFAULT_VIEW; resultCount := Blank; alerts := [] |}.

End PageSamples.

(* ------------------------------------------------------------------ *)
(** ** Properties *)

(** *** The stable sort *)

Section SortFacts.
Context {A : Type} (before : A -> A -> bool).

Lemma insert_sorted_perm (x : A) (l : list A) :
  Permutation (x :: l) (JS.insert_sorted before x l).
Proof.
  induction l as [|y r IH]; simpl.
  - apply Permutation_refl.
  - destruct (before x y).
    + apply Permutation_refl.
    + eapply perm_trans; [apply perm_swap|]. now apply perm_skip.
Qed.

Lemma sort_perm (l : list A) : Permutation l (JS.sort before l).
Proof.
  induction l as [|x r IH]; simpl.
  - apply perm_nil.
  - eapply perm_trans; [|apply insert_sorted_perm]. now apply perm_skip.
Qed.

Lemma sort_length (l : list A) :
  List.length (JS.sort before l) = List.length l.
Proof. symmetry. apply Permutation_length, sort_perm. Qed.

Lemma sort_In (l : list A) (x : A) : In x (JS.sort before l) <-> In x l.
Proof.
  split; intros H.
  - eapply Permutation_in; [apply Permutation_sym, sort_perm | exact H].
  - eapply Permutation_in; [apply sort_perm | exact H].
Qed.

(** The order [le] that [before] decides on the elements that satisfy
    [keyed]. *)
Context (le : A -> A -> Prop) (keyed : A -> Prop).
Hypothesis before_le :
  forall a b, keyed a -> keyed b -> before a b = true -> le a b.
Hypothesis not_before_le :
  forall a b, keyed a -> keyed b -> before a b = false -> le b a.

Lemma insert_sorted_Sorted (x : A) (l : list A) :
  keyed x -> Forall keyed l -> Sorted le l ->
  Sorted le (JS.insert_sorted before x l).
Proof.
  intros Hx Hl Hs. induction l as [|y r IH]; simpl.
  - repeat constructor.
  - inversion Hl as [|? ? Hy Hr]; subst.
    inversion Hs as [|? ? Hsr Hhd]; subst.
    destruct (before x y) eqn:Hb.
    + constructor; [assumption|]. constructor. now apply before_le.
    + constructor; [now apply IH|].
      destruct r as [|z r']; simpl.
      * constructor. now apply not_before_le.
      * destruct (before x z).
        -- constructor. now apply not_before_le.
        -- constructor. now inversion Hhd.
Qed.

Lemma sort_Sorted (l : list A) :
  Forall keyed l -> Sorted le (JS.sort before l).
Proof.
  induction l as [|x r IH]; simpl; intros Hl.
  - constructor.
  - inversion Hl as [|? ? Hx Hr]; subst.
    apply insert_sorted_Sorted; [exact Hx | | now apply IH].
    apply Forall_forall. intros y Hy.
    exact (proj1 (Forall_forall _ _) Hr y (proj1 (sort_In r y) Hy)).
Qed.

End SortFacts.

(** *** The state filter *)

Section StateFilter.
Import App.

Lemma has_In (set : list string) (s : string) :
  has set s = true <-> In s set.
Proof.
  unfold has. rewrite existsb_exists. split.
  - intros [x [Hx He]]. apply String.eqb_eq in He. now subst.
  - intros H. exists s. split; [assumption | apply String.eqb_refl].
Qed.

Lemma lookup_In key table v :
  lookup key table = Some v -> In v (map snd table).
Proof.
  induction table as [|[k w] rest IH]; simpl; [discriminate|].
  destruct (String.eqb key k).
  - intros [= ->]. now left.
  - intros H. right. now apply IH.
Qed.

Lemma VALID_CODES_two_letters :
  Forall (fun c => String.length c = 2%nat) VALID_CODES.
Proof. repeat constructor. Qed.

Lemma normalizeState_code raw c :
  normalizeState raw = Some c ->
  In c VALID_CODES /\ String.length c = 2%nat.
Proof.
  intros H.
  assert (Hin : In c VALID_CODES).
  { unfold normalizeState in H.
    destruct (negb (JS.truthyo raw)); [discriminate|].
    destruct raw as [r|]; [|discriminate].
    destruct (has VALID_CODES (JS.toUpperCase (JS.trim r))) eqn:Hh.
    - injection H as <-. now apply has_In.
    - destruct (JS.truthyo _); [|discriminate].
      now apply lookup_In in H. }
  split; [assumption|].
  exact (proj1 (Forall_forall _ _) VALID_CODES_two_letters c Hin).
Qed.

Lemma state_matches_spec st p :
  state_matches st p = true <-> normalizeState (state (addr p)) = Some st.
Proof.
  unfold state_matches.
  destruct (normalizeState (state (addr p))) as [c|].
  - rewrite String.eqb_eq. split; [now intros -> | now intros [= ->]].
  - split; discriminate.
Qed.

Lemma getFilteredPrescribers_In all st p :
  st <> "" ->
  (In p (getFilteredPrescribers all st) <->
   In p all /\ normalizeState (state (addr p)) = Some st).
Proof.
  intros Hst. unfold getFilteredPrescribers.
  destruct st as [|c r]; [contradiction|]. cbn [JS.truthy negb].
  rewrite filter_In, state_matches_spec. reflexivity.
Qed.

Lemma unique_In seen l x :
  In x (unique seen l) <-> In x l /\ ~ In x seen.
Proof.
  revert seen. induction l as [|y r IH]; intros seen; simpl.
  - tauto.
  - destruct (has seen y) eqn:Hs.
    + apply has_In in Hs. rewrite IH. split.
      * intros [Hr Hn]. auto.
      * intros [[<-|Hr] Hn]; [contradiction | auto].
    + assert (Hn : ~ In y seen).
      { intros Hy. apply has_In in Hy. congruence. }
      simpl. rewrite IH. simpl. split.
      * intros [<-|[Hr Hns]]; [auto|]. split; [auto|]. tauto.
      * intros [[<-|Hr] Hns]; [auto|].
        destruct (string_dec y x) as [->|Hne]; [auto|]. right. tauto.
Qed.

Lemma filter_Boolean_In l x :
  In x (JS.filter_Boolean l) <-> In (Some x) l /\ x <> "".
Proof.
  induction l as [|[y|] r IH]; simpl.
  - tauto.
  - destruct y as [|c y']; simpl.
    + rewrite IH. split.
      * intros [Hr Hx]. auto.
      * intros [[[= <-]|Hr] Hx]; [contradiction | auto].
    + rewrite IH. split.
      * intros [<-|[Hr Hx]]; [split; [auto | discriminate] | auto].
      * intros [[[= <-]|Hr] Hx]; auto.
  - rewrite IH. split.
    + intros [Hr Hx]. auto.
    + intros [[H|Hr] Hx]; [discriminate | auto].
Qed.

(** The options of the state drop-down are the normalized codes of the
    records. *)
Lemma populateStateFilter_In all c :
  In c (populateStateFilter all) <->
  exists p, In p all /\ normalizeState (state (addr p)) = Some c.
Proof.
  unfold populateStateFilter.
  rewrite sort_In, unique_In, filter_Boolean_In, in_map_iff. split.
  - intros [[[p [Hp Hin]] _] _]. now exists p.
  - intros [p [Hin Hp]]. split; [split|].
    + now exists p.
    + apply normalizeState_code in Hp as [_ Hlen].
      intros ->. discriminate.
    + intros [].
Qed.

End StateFilter.

Section StateFilterClaim.
Import App.

(** C1. The state filter keeps exactly the records whose free-text
    state normalizes to the selected 2-letter code: "California" and
    "CA" both normalize to "CA", every normalized value is one of the
    2-letter codes, "Ontario" normalizes to null, and a record whose
    state normalizes to null is in no state-filtered view but stays in
    the unfiltered one; the options offered are such codes, each with a
    record in its view. *)
Theorem C1_state_filter_normalized_exact_match :
  normalizeState (Some "California") = Some "CA"
  /\ normalizeState (Some "CA") = Some "CA"
  /\ normalizeState (Some "Ontario") = None
  /\ (forall raw c, normalizeState raw = Some c ->
        In c VALID_CODES /\ String.length c = 2%nat)
  /\ (forall all st p, st <> "" ->
        (In p (getFilteredPrescribers all st) <->
         In p all /\ normalizeState (state (addr p)) = Some st))
  /\ (forall all p, In p all ->
        normalizeState (state (addr p)) = None ->
        In p (getFilteredPrescribers all "")
        /\ forall st, st <> "" -> ~ In p (getFilteredPrescribers all st))
  /\ (forall all c, In c (populateStateFilter all) ->
        In c VALID_CODES /\ exists p, In p (getFilteredPrescribers all c)).
Proof.
  split; [reflexivity|]. split; [reflexivity|]. split; [reflexivity|].
  split; [exact normalizeState_code|].
  split; [exact getFilteredPrescribers_In|]. split.
  - intros all p Hin Hnone. split.
    + exact Hin.
    + intros st Hst Hp.
      apply (getFilteredPrescribers_In all st p Hst) in Hp.
      destruct Hp as [_ Hp]. congruence.
  - intros all c Hc. apply populateStateFilter_In in Hc as [p [Hin Hp]].
    destruct (normalizeState_code _ _ Hp) as [Hv Hlen].
    split; [exact Hv|]. exists p.
    apply getFilteredPrescribers_In; [|now split].
    intros ->. discriminate.
Qed.

Lemma C1_state_filter_witness :
  "CA" <> ""
  /\ In PageSamples.ann (getFilteredPrescribers PageSamples.roster "CA")
  /\ In PageSamples.cyd (getFilteredPrescribers PageSamples.roster "")
  /\ ~ In PageSamples.cyd (getFilteredPrescribers PageSamples.roster "CA").
Proof.
  assert (Hne : "CA" <> "") by discriminate.
  destruct C1_state_filter_normalized_exact_match
    as (_ & _ & _ & _ & Hview & Hout & _).
  split; [exact Hne|]. split.
  - apply (Hview PageSamples.roster "CA" _ Hne).
    split; [now left | reflexivity].
  - assert (Hin : In PageSamples.cyd PageSamples.roster)
      by (right; right; now left).
    destruct (Hout PageSamples.roster _ Hin eq_refl) as [Hall Hnot].
    split; [exact Hall | exact (Hnot "CA" Hne)].
Defined.

End StateFilterClaim.

Section Distance.
Import App.
Local Open Scope R_scope.

Lemma toRad_0 : toRad 0 = 0.
Proof. unfold toRad. lra. Qed.

Lemma atan2_0_1 : atan2 0 1 = 0.
Proof.
  unfold atan2. destruct (Rlt_dec 0 1) as [_|H]; [|lra].
  replace (0 / 1) with 0 by lra. apply atan_0.
Qed.

Lemma haversine_self (lat0 lon0 : R) : haversine lat0 lon0 lat0 lon0 = 0.
Proof.
  unfold haversine.
  replace (lat0 - lat0) with 0 by lra. replace (lon0 - lon0) with 0 by lra.
  rewrite toRad_0. replace (0 / 2) with 0 by lra. rewrite sin_0.
  replace (0 ^ 2 + cos (toRad lat0) * cos (toRad lat0) * 0 ^ 2) with 0
    by (simpl; lra).
  rewrite sqrt_0. replace (1 - 0) with 1 by lra. rewrite sqrt_1.
  rewrite atan2_0_1. lra.
Qed.

Lemma sin_half_toRad_opp (x y : R) :
  sin (toRad (x - y) / 2) ^ 2 = sin (toRad (y - x) / 2) ^ 2.
Proof.
  replace (toRad (x - y) / 2) with (- (toRad (y - x) / 2))
    by (unfold toRad; lra).
  rewrite sin_neg. simpl. lra.
Qed.

Lemma haversine_sym (lat1 lon1 lat2 lon2 : R) :
  haversine lat1 lon1 lat2 lon2 = haversine lat2 lon2 lat1 lon1.
Proof.
  unfold haversine.
  rewrite (sin_half_toRad_opp lat2 lat1), (sin_half_toRad_opp lon2 lon1).
  rewrite (Rmult_comm (cos (toRad lat1)) (cos (toRad lat2))).
  reflexivity.
Qed.

Lemma atan2_of_angle (x : R) :
  0 < x < PI / 2 ->
  atan2 (sqrt (sin x ^ 2)) (sqrt (1 - sin x ^ 2)) = x.
Proof.
  intros [Hx0 Hx1].
  assert (Hs : 0 < sin x) by (apply sin_gt_0; lra).
  assert (Hc : 0 < cos x) by (apply cos_gt_0; lra).
  replace (sin x ^ 2) with (Rsqr (sin x)) by (unfold Rsqr; simpl; lra).
  replace (1 - Rsqr (sin x)) with (Rsqr (cos x))
    by (pose proof (sin2_cos2 x); lra).
  rewrite !sqrt_Rsqr by lra.
  unfold atan2. destruct (Rlt_dec 0 (cos x)) as [_|H]; [|contradiction].
  change (sin x / cos x) with (tan x).
  apply atan_tan. lra.
Qed.

Lemma haversine_equator_degree (lon0 : R) :
  haversine 0 lon0 0 (lon0 + 1) = 3959 * PI / 180.
Proof.
  unfold haversine.
  replace (0 - 0) with 0 by lra. rewrite toRad_0.
  replace (0 / 2) with 0 by lra. rewrite sin_0, cos_0.
  replace (lon0 + 1 - lon0) with 1 by lra.
  set (x := toRad 1 / 2).
  replace (0 ^ 2 + 1 * 1 * sin x ^ 2) with (sin x ^ 2) by (simpl; lra).
  assert (Hx : 0 < x < PI / 2).
  { unfold x, toRad. pose proof PI_RGT_0. lra. }
  rewrite (atan2_of_angle x Hx). unfold x, toRad. lra.
Qed.

Lemma PI_bounds : 3.14159 < PI < 3.141597.
Proof.
  pose proof (PI_2_3_7_ineq 2) as [Hlo Hhi].
  unfold PI_2_3_7_tg, tg_alt, Ratan_seq in Hlo, Hhi.
  simpl in Hlo, Hhi. lra.
Qed.

Lemma equator_degree_miles :
  69.0975 < 3959 * PI / 180 < 69.0977.
Proof. pose proof PI_bounds. lra. Qed.

(** C9, as stated, at the points (0, 0) and (0, 1): the distance is not
    69.17 miles to the rounding of that figure; it is more than 0.07
    miles short of it, and differs already in the first decimal. *)
Lemma C9_equator_degree_is_not_69_17 :
  ~ Rabs (haversine 0 0 0 1 - 69.17) <= 0.05.
Proof.
  replace 1 with (0 + 1) at 1 by lra.
  rewrite haversine_equator_degree.
  pose proof equator_degree_miles as [Hlo Hhi].
  intros H.
  rewrite Rabs_left in H by lra. lra.
Qed.

(** C9, amended. The distance of a point to itself is 0, the distance is
    symmetric, and two points one degree of longitude apart on the
    equator are 3959 * pi / 180 miles apart, which is 69.10 miles to two
    decimals. *)
Theorem C9_haversine_zero_symmetric_equator :
  (forall lat0 lon0, haversine lat0 lon0 lat0 lon0 = 0)
  /\ (forall lat1 lon1 lat2 lon2,
        haversine lat1 lon1 lat2 lon2 = haversine lat2 lon2 lat1 lon1)
  /\ (forall lon0,
        haversine 0 lon0 0 (lon0 + 1) = 3959 * PI / 180
        /\ Rabs (haversine 0 lon0 0 (lon0 + 1) - 69.10) <= 0.005).
Proof.
  split; [exact haversine_self|]. split; [exact haversine_sym|].
  intros lon0. rewrite haversine_equator_degree. split; [reflexivity|].
  pose proof equator_degree_miles as [Hlo Hhi].
  apply Rabs_le. lra.
Qed.

End Distance.


(** *** Radius search *)

Section RadiusSearch.
Import App.
Local Open Scope R_scope.

Lemma by_distance_le a b :
  has_distance a -> has_distance b -> by_distance a b = true ->
  distance_le a b.
Proof.
  unfold has_distance, by_distance, distance_le. intros Ha Hb.
  destruct (distance a) as [x|]; [|contradiction].
  destruct (distance b) as [y|]; [|contradiction].
  simpl. destruct (Rle_dec (x - y) 0); [lra | discriminate].
Qed.

Lemma not_by_distance_le a b :
  has_distance a -> has_distance b -> by_distance a b = false ->
  distance_le b a.
Proof.
  unfold has_distance, by_distance, distance_le. intros Ha Hb.
  destruct (distance a) as [x|]; [|contradiction].
  destruct (distance b) as [y|]; [|contradiction].
  simpl. destruct (Rle_dec (x - y) 0); [discriminate | lra].
Qed.

Lemma distance_le_trans : Relations_1.Transitive distance_le.
Proof. intros a b c. unfold distance_le. lra. Qed.

Lemma within_spec r p :
  within r p = true <-> exists d, distance p = Some d /\ d <= IZR r.
Proof.
  unfold within. destruct (distance p) as [d|].
  - destruct (Rle_dec d (IZR r)); split.
    + intros _. now exists d.
    + reflexivity.
    + discriminate.
    + intros [d' [[= <-] H]]. contradiction.
  - split; [discriminate | intros [d [H _]]; discriminate].
Qed.

Lemma in_radius_In base la lo r q :
  In q (in_radius base la lo r) <->
  exists p, In p base /\ has_coords p = true
            /\ q = with_distance la lo p
            /\ haversine la lo (num (lat p)) (num (lng p)) <= IZR r.
Proof.
  unfold in_radius. rewrite filter_In, in_map_iff. split.
  - intros [[p [<- Hp]] Hw]. apply filter_In in Hp as [Hp Hc].
    apply within_spec in Hw as [d [Hd Hle]]. simpl in Hd.
    injection Hd as <-. exists p. auto.
  - intros [p (Hp & Hc & -> & Hle)]. split.
    + exists p. split; [reflexivity|]. now apply filter_In.
    + apply within_spec. eexists. split; [reflexivity | exact Hle].
Qed.

Lemma in_radius_has_distance base la lo r :
  Forall has_distance (in_radius base la lo r).
Proof.
  apply Forall_forall. intros q Hq.
  apply in_radius_In in Hq as [p (_ & _ & -> & _)]. discriminate.
Qed.

Lemma nearby_In base la lo r q :
  In q (nearby base la lo r) <->
  exists p, In p base /\ has_coords p = true
            /\ q = with_distance la lo p
            /\ haversine la lo (num (lat p)) (num (lng p)) <= IZR r.
Proof.
  unfold nearby. rewrite sort_In. apply in_radius_In.
Qed.

Lemma nearby_sorted base la lo r :
  StronglySorted distance_le (nearby base la lo r).
Proof.
  apply Sorted_StronglySorted; [exact distance_le_trans|].
  apply (sort_Sorted by_distance distance_le has_distance).
  - exact by_distance_le.
  - exact not_by_distance_le.
  - apply in_radius_has_distance.
Qed.

End RadiusSearch.

Section SearchClaims.
Import App.
Local Open Scope R_scope.

Lemma doSearch_resolved net st glat glng :
  valid_zip (JS.trim (zipInput st)) = true ->
  geocodeZip net (JS.trim (zipInput st)) = Some (glat, glng) ->
  doSearch net st =
  doSearch_resume (JS.trim (zipInput st)) (radiusSelect st)
                  (Some (glat, glng)) st.
Proof.
  intros Hv Hg. unfold doSearch, doSearch_begin.
  rewrite Hv. cbn [negb]. now rewrite Hg.
Qed.

(** C6. A radius search that resolves its zip shows exactly the records
    of the state-filtered list that have coordinates and lie within the
    selected radius of the zip's coordinates by the haversine distance,
    each once, in ascending order of distance; with radius 10 no shown
    record is farther than 10 miles; with a state selected every shown
    record is of that state. *)
Theorem C6_radius_search_within_sorted_state_subset
    (net : string -> Net.response (list zip_item)) (st : page)
    (glat glng : R) :
  valid_zip (JS.trim (zipInput st)) = true ->
  geocodeZip net (JS.trim (zipInput st)) = Some (glat, glng) ->
  let base := getFilteredPrescribers (allPrescribers st) (stateFilter st) in
  let result := shown (doSearch net st) in
  (forall q, In q result <->
     exists p, In p base /\ has_coords p = true
               /\ q = with_distance glat glng p
               /\ haversine glat glng (num (lat p)) (num (lng p))
                  <= IZR (radiusSelect st))
  /\ Permutation (in_radius base glat glng (radiusSelect st)) result
  /\ StronglySorted distance_le result
  /\ (radiusSelect st = 10%Z ->
      forall q d, In q result -> distance q = Some d -> ~ 10 < d)
  /\ (stateFilter st <> "" ->
      forall q, In q result ->
        normalizeState (state (addr q)) = Some (stateFilter st)).
Proof.
  intros Hv Hg base result.
  assert (Hres : result = nearby base glat glng (radiusSelect st)).
  { unfold result. now rewrite (doSearch_resolved net st glat glng Hv Hg). }
  rewrite Hres. clear Hres result.
  split; [intros q; apply nearby_In|].
  split; [apply sort_perm|].
  split; [apply nearby_sorted|].
  split.
  - intros Hr q d Hq Hd.
    apply nearby_In in Hq as [p (_ & _ & -> & Hle)].
    simpl in Hd. injection Hd as <-. rewrite Hr in Hle. lra.
  - intros Hst q Hq.
    apply nearby_In in Hq as [p (Hp & _ & -> & _)]. simpl.
    now apply (getFilteredPrescribers_In _ _ p Hst) in Hp.
Qed.

Lemma alert_keeps msg st :
  let st' := alert msg st in
  allPrescribers st' = allPrescribers st
  /\ stateFilter st' = stateFilter st
  /\ zipInput st' = zipInput st
  /\ radiusSelect st' = radiusSelect st
  /\ searchLat st' = searchLat st
  /\ searchLng st' = searchLng st
  /\ searchCircle st' = searchCircle st
  /\ shown st' = shown st
  /\ shownFiltered st' = shownFiltered st
  /\ zipMarkers st' = zipMarkers st
  /\ mapView st' = mapView st
  /\ resultCount st' = resultCount st.
Proof. repeat split. Qed.

Lemma doSearch_error net st :
  valid_zip (JS.trim (zipInput st)) = false
  \/ geocodeZip net (JS.trim (zipInput st)) = None ->
  exists msg, doSearch net st = alert msg st.
Proof.
  intros H. unfold doSearch, doSearch_begin.
  destruct (valid_zip (JS.trim (zipInput st))) eqn:Hv; cbn [negb].
  - destruct H as [H|H]; [discriminate|]. rewrite H. simpl. eauto.
  - eauto.
Qed.

(** C7. A search whose zip is not five digits, or whose zip the geocoder
    does not resolve, raises one alert and leaves the filter state as it
    was: the stored search coordinates, the radius circle, the shown
    records, the selected state and the rest of the page are unchanged. *)
Theorem C7_search_error_alerts_keeps_filter_state
    (net : string -> Net.response (list zip_item)) (st : page) :
  valid_zip (JS.trim (zipInput st)) = false
  \/ geocodeZip net (JS.trim (zipInput st)) = None ->
  let st' := doSearch net st in
  (exists msg, alerts st' = (alerts st ++ [msg])%list)
  /\ searchLat st' = searchLat st
  /\ searchLng st' = searchLng st
  /\ searchCircle st' = searchCircle st
  /\ shown st' = shown st
  /\ shownFiltered st' = shownFiltered st
  /\ stateFilter st' = stateFilter st
  /\ allPrescribers st' = allPrescribers st
  /\ zipInput st' = zipInput st
  /\ radiusSelect st' = radiusSelect st
  /\ zipMarkers st' = zipMarkers st
  /\ mapView st' = mapView st
  /\ resultCount st' = resultCount st.
Proof.
  intros H st'. destruct (doSearch_error net st H) as [msg Hd].
  unfold st'. rewrite Hd. split; [now exists msg|]. repeat split.
Qed.

(** The same on the resumption of a search, whatever the page has become
    while the geocoder was asked. *)
Lemma doSearch_resume_unresolved zip r st :
  doSearch_resume zip r None st
  = alert ("Could not find location for zip code: " ++ zip) st.
Proof. reflexivity. Qed.

End SearchClaims.

(** *** Name search *)

Section NameSearch.
Import App.

Lemma startsWith_spec p s :
  JS.startsWith p s = true <-> exists post, s = p ++ post.
Proof.
  revert s. induction p as [|a p' IH]; intros s; simpl.
  - split; [intros _; now exists s | reflexivity].
  - destruct s as [|b s'].
    + split; [discriminate | intros [post H]; discriminate].
    + rewrite andb_true_iff, Ascii.eqb_eq, IH. split.
      * intros [-> [post ->]]. now exists post.
      * intros [post [= -> ->]]. split; [reflexivity | now exists post].
Qed.

(** [includes] is the substring test. *)
Lemma includes_spec s q :
  JS.includes s q = true <-> exists pre post, s = pre ++ q ++ post.
Proof.
  induction s as [|c r IH].
  - simpl. rewrite orb_false_r, startsWith_spec. split.
    + intros [post H]. now exists "", post.
    + intros [pre [post H]]. destruct pre; [|discriminate]. now exists post.
  - cbn [JS.includes]. rewrite orb_true_iff, startsWith_spec, IH. split.
    + intros [[post H] | [pre [post H]]].
      * now exists "", post.
      * exists (String c pre), post. simpl. now rewrite H.
    + intros [pre [post H]]. destruct pre as [|c' pre'].
      * left. now exists post.
      * right. simpl in H. injection H as _ H. now exists pre', post.
Qed.

Lemma slice0_In {A} n (l : list A) x : In x (JS.slice0 n l) -> In x l.
Proof.
  unfold JS.slice0. intros H. rewrite <- (firstn_skipn n l).
  apply in_or_app. now left.
Qed.

Lemma map_string_length f s :
  String.length (JS.map_string f s) = String.length s.
Proof. induction s; simpl; congruence. Qed.

Lemma lower_upper_ascii c :
  JS.lower_ascii (JS.upper_ascii c) = JS.lower_ascii c.
Proof. destruct c as [[] [] [] [] [] [] [] []]; reflexivity. Qed.

Lemma is_space_upper_ascii c :
  JS.is_space (JS.upper_ascii c) = JS.is_space c.
Proof. destruct c as [[] [] [] [] [] [] [] []]; reflexivity. Qed.

Lemma toLowerCase_toUpperCase s :
  JS.toLowerCase (JS.toUpperCase s) = JS.toLowerCase s.
Proof.
  unfold JS.toLowerCase, JS.toUpperCase.
  induction s as [|c r IH]; simpl; [reflexivity|].
  now rewrite lower_upper_ascii, IH.
Qed.

Lemma list_ascii_of_map_string f s :
  list_ascii_of_string (JS.map_string f s)
  = map f (list_ascii_of_string s).
Proof. induction s; simpl; congruence. Qed.

Lemma string_of_list_ascii_map f l :
  string_of_list_ascii (map f l)
  = JS.map_string f (string_of_list_ascii l).
Proof. induction l; simpl; congruence. Qed.

Lemma rev_string_map_string f s :
  JS.rev_string (JS.map_string f s) = JS.map_string f (JS.rev_string s).
Proof.
  unfold JS.rev_string.
  now rewrite list_ascii_of_map_string, <- map_rev, string_of_list_ascii_map.
Qed.

Lemma trimStart_toUpperCase s :
  JS.trimStart (JS.toUpperCase s) = JS.toUpperCase (JS.trimStart s).
Proof.
  unfold JS.toUpperCase. induction s as [|c r IH]; simpl; [reflexivity|].
  rewrite is_space_upper_ascii. now destruct (JS.is_space c).
Qed.

Lemma trim_toUpperCase s :
  JS.trim (JS.toUpperCase s) = JS.toUpperCase (JS.trim s).
Proof.
  unfold JS.trim, JS.trimEnd. rewrite trimStart_toUpperCase.
  unfold JS.toUpperCase.
  rewrite rev_string_map_string.
  fold JS.toUpperCase. rewrite trimStart_toUpperCase.
  unfold JS.toUpperCase. now rewrite rev_string_map_string.
Qed.

(** The search does not see the case of what is typed. *)
Lemma doctorSearch_toUpperCase all value :
  doctorSearch all (JS.toUpperCase value) = doctorSearch all value.
Proof.
  unfold doctorSearch.
  now rewrite trim_toUpperCase, toLowerCase_toUpperCase.
Qed.

(** After any series of input events the drop-down is the search on the
    current value of the box. *)
Lemma afterInputs_last all earlier value shownBefore :
  afterInputs all (earlier ++ [value]) shownBefore
  = doctorSearch all value.
Proof. unfold afterInputs. now rewrite fold_left_app. Qed.

(** C4. On each input event, a query of at least the minimum length
    (2, after trimming) shows the records whose name contains the query as
    a substring, case ignored on both sides, in the order of the list and
    cut to the first 20, whatever was typed and shown before. *)
Theorem C4_name_search_substring_capped
    (all : list prescriber) (value : string) :
  (MIN_QUERY <= String.length (JS.trim value))%nat ->
  let query := JS.toLowerCase (JS.trim value) in
  exists matches,
    doctorSearch all value = Shown matches
    /\ matches = firstn MAX_MATCHES (filter (name_matches query) all)
    /\ (List.length matches <= MAX_MATCHES)%nat
    /\ (forall p, In p matches ->
          In p all
          /\ exists n pre post,
               name p = Some n
               /\ JS.toLowerCase n = pre ++ query ++ post)
    /\ ((List.length (filter (name_matches query) all) <= MAX_MATCHES)%nat ->
        forall p n pre post,
          In p all -> name p = Some n -> n <> "" ->
          JS.toLowerCase n = pre ++ query ++ post ->
          In p matches)
    /\ doctorSearch all (JS.toUpperCase value) = Shown matches
    /\ (forall earlier shownBefore,
          afterInputs all (earlier ++ [value]) shownBefore = Shown matches).
Proof.
  intros Hlen query.
  exists (firstn MAX_MATCHES (filter (name_matches query) all)).
  assert (Hd : doctorSearch all value
               = Shown (firstn MAX_MATCHES
                          (filter (name_matches query) all))).
  { unfold doctorSearch. fold query.
    destruct (String.length query <? MIN_QUERY)%nat eqn:Hq;
      [|reflexivity].
    apply Nat.ltb_lt in Hq. unfold query, JS.toLowerCase in Hq.
    rewrite map_string_length in Hq. lia. }
  split; [exact Hd|]. split; [reflexivity|].
  split; [apply firstn_le_length|]. split; [|split; [|split]].
  - intros p Hp. apply slice0_In in Hp. apply filter_In in Hp as [Hin Hm].
    split; [exact Hin|]. unfold name_matches in Hm.
    destruct (name p) as [n|]; [|discriminate].
    apply andb_true_iff in Hm as [_ Hm].
    apply includes_spec in Hm as [pre [post Hm]]. now exists n, pre, post.
  - intros Hfew p n pre post Hin Hn Hne Hsub.
    rewrite firstn_all2 by exact Hfew.
    apply filter_In. split; [exact Hin|].
    unfold name_matches. rewrite Hn. apply andb_true_iff. split.
    + destruct n; [contradiction | reflexivity].
    + apply includes_spec. now exists pre, post.
  - now rewrite doctorSearch_toUpperCase.
  - intros earlier shownBefore. now rewrite afterInputs_last.
Qed.

Lemma doctorSearch_short all value :
  (String.length (JS.trim value) < MIN_QUERY)%nat ->
  doctorSearch all value = Hidden.
Proof.
  intros H. unfold doctorSearch.
  destruct (String.length _ <? MIN_QUERY)%nat eqn:Hq; [reflexivity|].
  apply Nat.ltb_ge in Hq. unfold JS.toLowerCase in Hq.
  rewrite map_string_length in Hq. lia.
Qed.

End NameSearch.

(** *** Pagination *)

Section Pagination.
Import Net Pipeline.
Variable w : world.

Lemma fetchAll_loop_throws k :
  page_data w k = None ->
  exists msg, forall fuel all s,
    fetchAll_loop w (S fuel) (k * BATCH_SIZE) all s = Threw msg.
Proof.
  unfold page_data. intros H.
  destruct (ac_contacts w (k * BATCH_SIZE)) as [|status body] eqn:Hr.
  - exists "fetch failed". intros. simpl.
    unfold bind, acFetch, bind. now rewrite Hr.
  - destruct body as [data|].
    + destruct (ok status) eqn:Hok; [discriminate|].
      exists "AC API error". intros. simpl.
      unfold bind, acFetch, bind. rewrite Hr. simpl. now rewrite Hok.
    + destruct (ok status) eqn:Hok.
      * exists "Unexpected token in JSON". intros. simpl.
        unfold bind, acFetch, bind. rewrite Hr. simpl. now rewrite Hok.
      * exists "AC API error". intros. simpl.
        unfold bind, acFetch, bind. rewrite Hr. simpl. now rewrite Hok.
Qed.

Lemma fetchAll_loop_step k data fuel s :
  page_data w k = Some data ->
  fetchAll_loop w (S fuel) (k * BATCH_SIZE) (gathered w k) s
  = if last_page w k then Ret (gathered w (S k), s)
    else fetchAll_loop w fuel (S k * BATCH_SIZE) (gathered w (S k)) s.
Proof.
  intros H. unfold last_page, page_total, page_contacts.
  cbn [gathered]. unfold page_contacts. rewrite H.
  unfold page_data in H.
  destruct (ac_contacts w (k * BATCH_SIZE)) as [|status body] eqn:Hr;
    [discriminate|].
  destruct body as [d|]; [|discriminate].
  destruct (ok status) eqn:Hok; [|discriminate].
  injection H as ->.
  cbn [fetchAll_loop]. unfold bind, acFetch, bind. rewrite Hr.
  cbn [fetch ret fst snd]. rewrite Hok. cbn [negb json ret].
  replace (k * BATCH_SIZE + BATCH_SIZE)%nat with (S k * BATCH_SIZE)%nat
    by (unfold BATCH_SIZE; lia).
  destruct (length_reaches _ _ || _); reflexivity.
Qed.

(** From the [j]-th page on, the loop ends within [n + 1] iterations when
    the page [j + n] is a last page. *)
Lemma fetchAll_loop_ends n :
  forall j s,
    last_page w (j + n) = true ->
    exists r, r <> OutOfFuel /\
      forall fuel, (n < fuel)%nat ->
        fetchAll_loop w fuel (j * BATCH_SIZE) (gathered w j) s = r.
Proof.
  induction n as [|n IH]; intros j s Hlast.
  - rewrite Nat.add_0_r in Hlast.
    destruct (page_data w j) as [data|] eqn:Hd.
    + exists (Ret (gathered w (S j), s)). split; [discriminate|].
      intros [|fuel] Hf; [lia|].
      now rewrite (fetchAll_loop_step j data fuel s Hd), Hlast.
    + destruct (fetchAll_loop_throws j Hd) as [msg Hm].
      exists (Threw msg). split; [discriminate|].
      intros [|fuel] Hf; [lia | apply Hm].
  - destruct (page_data w j) as [data|] eqn:Hd.
    + destruct (last_page w j) eqn:Hj.
      * exists (Ret (gathered w (S j), s)). split; [discriminate|].
        intros [|fuel] Hf; [lia|].
        now rewrite (fetchAll_loop_step j data fuel s Hd), Hj.
      * replace (j + S n)%nat with (S j + n)%nat in Hlast by lia.
        destruct (IH (S j) s Hlast) as [r [Hr Hall]].
        exists r. split; [exact Hr|].
        intros [|fuel] Hf; [lia|].
        rewrite (fetchAll_loop_step j data fuel s Hd), Hj.
        apply Hall. lia.
    + destruct (fetchAll_loop_throws j Hd) as [msg Hm].
      exists (Threw msg). split; [discriminate|].
      intros [|fuel] Hf; [lia | apply Hm].
Qed.

(** When the pages before the first last page all arrive, the loop
    returns what they hold. *)
Lemma fetchAll_loop_returns n :
  forall j s,
    last_page w (j + n) = true ->
    (forall i, (i < n)%nat -> last_page w (j + i) = false) ->
    (forall i, (i <= n)%nat -> page_data w (j + i) <> None) ->
    forall fuel, (n < fuel)%nat ->
      fetchAll_loop w fuel (j * BATCH_SIZE) (gathered w j) s
      = Ret (gathered w (S (j + n)), s).
Proof.
  induction n as [|n IH]; intros j s Hlast Hnot Hdata fuel Hf.
  - rewrite Nat.add_0_r in *.
    destruct (page_data w j) as [data|] eqn:Hd.
    + destruct fuel as [|fuel]; [lia|].
      now rewrite (fetchAll_loop_step j data fuel s Hd), Hlast.
    + exfalso. apply (Hdata 0%nat); [lia|]. now rewrite Nat.add_0_r.
  - destruct (page_data w j) as [data|] eqn:Hd.
    + destruct fuel as [|fuel]; [lia|].
      rewrite (fetchAll_loop_step j data fuel s Hd).
      assert (Hj : last_page w j = false).
      { specialize (Hnot 0%nat ltac:(lia)). now rewrite Nat.add_0_r in Hnot. }
      rewrite Hj.
      replace (j + S n)%nat with (S j + n)%nat in * by lia.
      apply IH; [exact Hlast | | | lia].
      * intros i Hi. specialize (Hnot (S i) ltac:(lia)).
        now replace (j + S i)%nat with (S j + i)%nat in Hnot by lia.
      * intros i Hi. specialize (Hdata (S i) ltac:(lia)).
        now replace (j + S i)%nat with (S j + i)%nat in Hdata by lia.
    + exfalso. apply (Hdata 0%nat); [lia|]. now rewrite Nat.add_0_r.
Qed.

End Pagination.

Section PaginationClaim.
Import Net Pipeline.

(** C8. The pagination loop gathers the pages in order and ends at the
    first page that is empty or brings the count to the total it reports:
    when some page is such a page, the loop ends within a bounded number
    of iterations, whatever the totals reported before; and when the pages
    up to that one all arrive, it returns their contacts. *)
Theorem C8_pagination_ends_at_last_page
    (w : world) (k : nat) (s : pstate) :
  last_page w k = true ->
  exists fuel r,
    r <> OutOfFuel
    /\ (forall fuel', (fuel <= fuel')%nat ->
          fetchAllPrescribers w fuel' s = r)
    /\ ((forall i, (i < k)%nat -> last_page w i = false) ->
        (forall i, (i <= k)%nat -> page_data w i <> None) ->
        r = Ret (gathered w (S k), s)).
Proof.
  intros Hlast.
  destruct (fetchAll_loop_ends w k 0 s Hlast) as [r [Hr Hall]].
  exists (S k), r. split; [exact Hr|]. split.
  - intros fuel' Hf. unfold fetchAllPrescribers.
    apply (Hall fuel'). lia.
  - intros Hnot Hdata.
    rewrite <- (Hall (S k)) by lia.
    apply (fetchAll_loop_returns w k 0 s Hlast Hnot Hdata). lia.
Qed.

End PaginationClaim.

(** *** Geocoding *)

Section Geocoding.
Import Net Pipeline.

Lemma geocodeNominatim_eq w address s :
  geocodeNominatim w address s =
  match nominatim w address with
  | Rejected => Threw "fetch failed"
  | Response status body =>
      if ok status then
        match body with
        | None => Threw "Unexpected token in JSON"
        | Some [] => Ret (None, after_nominatim s)
        | Some (r0 :: _) =>
            Ret (Some {| g_lat := n_lat r0; g_lng := n_lon r0;
                         g_source := "nominatim" |}, after_nominatim s)
        end
      else Ret (None, after_nominatim s)
  end.
Proof.
  unfold geocodeNominatim, bind, after_nominatim, getCount, bumpCount.
  destruct (0 <? geocodeCount s)%nat; cbn [sleep ret geocodeCount slept];
    (destruct (nominatim w address) as [|status body]; [reflexivity|];
     cbn [fetch ret fst snd];
     destruct (ok status); cbn [negb]; [|reflexivity];
     destruct body as [[|r0 rest]|]; reflexivity).
Qed.

Lemma geocodeGoogle_eq w address s :
  geocodeGoogle w address s =
  match google_geocode w address with
  | Rejected => Threw "fetch failed"
  | Response status body =>
      if ok status then
        match body with
        | None => Threw "Unexpected token in JSON"
        | Some data =>
            match gg_results data with
            | Some (loc :: _) =>
                if String.eqb (gg_status data) "OK"
                then Ret (Some {| g_lat := loc_lat loc;
                                  g_lng := loc_lng loc;
                                  g_source := "google" |}, s)
                else Ret (None, s)
            | _ => Ret (None, s)
            end
        end
      else Ret (None, s)
  end.
Proof.
  unfold geocodeGoogle, bind.
  destruct (google_geocode w address) as [|status body]; [reflexivity|].
  cbn [fetch ret fst snd]. destruct (ok status); cbn [negb]; [|reflexivity].
  destruct body as [data|]; [|reflexivity]. cbn [json ret].
  destruct (gg_results data) as [[|loc rest]|]; cbn [List.length Nat.eqb].
  - now rewrite orb_true_r.
  - rewrite orb_false_r. now destruct (String.eqb (gg_status data) "OK").
  - now rewrite orb_true_r.
Qed.

Lemma geocodeNominatim_failed w address s :
  nominatim_failed (nominatim w address) = true ->
  geocodeNominatim w address s = Ret (None, after_nominatim s).
Proof.
  rewrite geocodeNominatim_eq. unfold nominatim_failed.
  destruct (nominatim w address) as [|status body]; [discriminate|].
  destruct (ok status); cbn [negb orb]; [|reflexivity].
  destruct body as [[|r0 rest]|]; (reflexivity || discriminate).
Qed.

Lemma geocodeGoogle_failed w address s :
  google_failed (google_geocode w address) = true ->
  geocodeGoogle w address s = Ret (None, s).
Proof.
  rewrite geocodeGoogle_eq. unfold google_failed.
  destruct (google_geocode w address) as [|status body]; [discriminate|].
  destruct (ok status); cbn [negb orb]; [|reflexivity].
  destruct body as [data|]; [|discriminate].
  destruct (gg_results data) as [[|loc rest]|];
    (reflexivity || discriminate).
Qed.

Lemma geocode_failed cfg w address s :
  reports_failure cfg w address = true ->
  exists s', geocode cfg w address s = Ret (None, s').
Proof.
  unfold reports_failure, geocode. destruct (use_google cfg); intros H.
  - exists s. now apply geocodeGoogle_failed.
  - exists (after_nominatim s). now apply geocodeNominatim_failed.
Qed.

(** A geocoder that answers returns, with a result from one of the two
    sources or with null. *)
Lemma geocode_answers cfg w address s :
  geocoder_answers cfg w address = true ->
  exists g s', geocode cfg w address s = Ret (g, s')
    /\ forall x, g = Some x ->
         g_source x = "nominatim" \/ g_source x = "google".
Proof.
  unfold geocoder_answers, geocode, answers.
  destruct (use_google cfg); intros H.
  - rewrite geocodeGoogle_eq.
    destruct (google_geocode w address) as [|status body]; [discriminate|].
    destruct (ok status); cbn [negb orb] in H.
    + destruct body as [data|]; [|discriminate].
      destruct (gg_results data) as [[|loc rest]|].
      * exists None, s. split; [reflexivity | discriminate].
      * destruct (String.eqb (gg_status data) "OK").
        -- eexists _, s. split; [reflexivity|].
           intros x [= <-]. now right.
        -- exists None, s. split; [reflexivity | discriminate].
      * exists None, s. split; [reflexivity | discriminate].
    + exists None, s. split; [reflexivity | discriminate].
  - rewrite geocodeNominatim_eq.
    destruct (nominatim w address) as [|status body]; [discriminate|].
    destruct (ok status); cbn [negb orb] in H.
    + destruct body as [[|r0 rest]|]; [| |discriminate].
      * eexists None, _. split; [reflexivity | discriminate].
      * eexists _, _. split; [reflexivity|].
        intros x [= <-]. now left.
    + eexists None, _. split; [reflexivity | discriminate].
Qed.

(** A geocoder that does not answer (the request is rejected, or the body
    of a success does not parse) makes the operation throw. *)
Lemma geocode_unanswered cfg w address s :
  geocoder_answers cfg w address = false ->
  exists msg, geocode cfg w address s = Threw msg.
Proof.
  unfold geocoder_answers, geocode, answers.
  destruct (use_google cfg); intros H.
  - rewrite geocodeGoogle_eq.
    destruct (google_geocode w address) as [|status body]; [eauto|].
    destruct (ok status); cbn [negb orb] in H; [|discriminate].
    destruct body; [discriminate | eauto].
  - rewrite geocodeNominatim_eq.
    destruct (nominatim w address) as [|status body]; [eauto|].
    destruct (ok status); cbn [negb orb] in H; [|discriminate].
    destruct body; [discriminate | eauto].
Qed.

(** A request that is rejected (the geocoder cannot be reached) is
    neither a non-success status nor an empty result set: there the
    exception of [fetch] goes on to the caller. *)
Lemma geocode_rejected_request_throws :
  nominatim Samples.unreachable "19104, USA" = Rejected
  /\ geocode Samples.cfg_free Samples.unreachable "19104, USA" initial
     = Threw "fetch failed".
Proof. split; reflexivity. Qed.

(** The geocode operation returns exactly when the geocoder answers. *)
Lemma geocode_returns_iff_answers cfg w address s :
  (geocoder_answers cfg w address = true ->
   exists g s', geocode cfg w address s = Ret (g, s'))
  /\ (geocoder_answers cfg w address = false ->
      exists msg, geocode cfg w address s = Threw msg).
Proof.
  split.
  - intros H. destruct (geocode_answers cfg w address s H)
      as (g & s' & Hg & _). now exists g, s'.
  - apply geocode_unanswered.
Qed.

(** C2. For every address, a non-success status or an empty result set
    of the geocoder makes the geocode operation return null, as a normal
    return and not as an exception, with either backend and through the
    selecting [geocode]; what to do then is left to the caller. *)
Theorem C2_geocode_null_on_reported_failure
    (cfg : config) (w : world) (address : string) (s : pstate) :
  (nominatim_failed (nominatim w address) = true ->
   exists s', geocodeNominatim w address s = Ret (None, s'))
  /\ (google_failed (google_geocode w address) = true ->
      exists s', geocodeGoogle w address s = Ret (None, s'))
  /\ (reports_failure cfg w address = true ->
      exists s', geocode cfg w address s = Ret (None, s')).
Proof.
  split; [|split].
  - intros H. eexists. now apply geocodeNominatim_failed.
  - intros H. eexists. now apply geocodeGoogle_failed.
  - apply geocode_failed.
Qed.

End Geocoding.

(** *** Building a record *)

Section Builder.
Import Net Pipeline.

Lemma enrichWithGoogle_returns cfg w p s :
  exists e, enrichWithGoogle cfg w p s = Ret (e, s).
Proof.
  unfold enrichWithGoogle.
  destruct (JS.truthyo (GOOGLE_KEY cfg)); cbn [negb];
    [|now exists no_enrichment].
  unfold try_catch, bind.
  destruct (google_places w (places_query p)) as [|status body];
    [now exists no_enrichment|].
  cbn [fetch ret fst snd]. destruct (ok status); cbn [negb];
    [|now exists no_enrichment].
  destruct body as [data|]; [|now exists no_enrichment].
  cbn [json ret].
  destruct (pb_results data) as [[|place rest]|]; eexists; reflexivity.
Qed.

Lemma enrichWithGoogle_failed cfg w p s :
  places_failed (google_places w (places_query p)) = true ->
  enrichWithGoogle cfg w p s = Ret (no_enrichment, s).
Proof.
  unfold enrichWithGoogle, places_failed.
  destruct (JS.truthyo (GOOGLE_KEY cfg)); cbn [negb]; [|reflexivity].
  unfold try_catch, bind.
  destruct (google_places w (places_query p)) as [|status body];
    [reflexivity|].
  cbn [fetch ret fst snd]. destruct (ok status); cbn [negb orb];
    [|reflexivity].
  destruct body as [data|]; [|reflexivity]. cbn [json ret].
  destruct (pb_results data) as [[|place rest]|];
    (reflexivity || discriminate).
Qed.

Lemma buildPrescriber_eq cfg w contact f s :
  buildPrescriber cfg w contact f s =
  match locate cfg w f s with
  | Ret (g, s1) =>
      if ENRICH cfg then
        match enrichWithGoogle cfg w (record_of contact f g) s1 with
        | Ret (e, s2) => Ret (set_enrichment (record_of contact f g) e, s2)
        | Threw msg => Threw msg
        | OutOfFuel => OutOfFuel
        end
      else Ret (record_of contact f g, s1)
  | Threw msg => Threw msg
  | OutOfFuel => OutOfFuel
  end.
Proof.
  unfold buildPrescriber, bind.
  destruct (locate cfg w f s) as [[g s1]| |]; try reflexivity.
  destruct (ENRICH cfg); [|reflexivity].
  destruct (enrichWithGoogle cfg w (record_of contact f g) s1)
    as [[e s2]| |]; reflexivity.
Qed.

(** Once [geo] is computed, the record is built. *)
Lemma buildPrescriber_located cfg w contact f s g s1 :
  locate cfg w f s = Ret (g, s1) ->
  exists p, buildPrescriber cfg w contact f s = Ret (p, s1)
    /\ id p = c_id contact
    /\ lat p = lat (record_of contact f g)
    /\ lng p = lng (record_of contact f g)
    /\ geoSource p = geoSource (record_of contact f g)
    /\ full (addr p) = full (addr (record_of contact f g)).
Proof.
  intros H. rewrite buildPrescriber_eq, H.
  destruct (ENRICH cfg).
  - destruct (enrichWithGoogle_returns cfg w (record_of contact f g) s1)
      as [e He].
    rewrite He. eexists. split; [reflexivity|]. repeat split.
  - eexists. split; [reflexivity|]. repeat split.
Qed.

(** When the full address and the zip alone both fail to geocode, [geo]
    stays null. *)
Lemma locate_failed cfg w f s :
  reports_failure cfg w (buildAddress f) = true ->
  (forall z, f zip = Some z ->
     reports_failure cfg w (z ++ ", USA") = true) ->
  exists s1, locate cfg w f s = Ret (None, s1).
Proof.
  intros Hfull Hzip. unfold locate.
  destruct (JS.truthy (buildAddress f)); [|now exists s].
  unfold bind.
  destruct (geocode_failed cfg w (buildAddress f) s Hfull) as [s0 H0].
  rewrite H0.
  destruct (f zip) as [z|] eqn:Hz; [|now exists s0].
  destruct (JS.truthy z); [|now exists s0].
  apply geocode_failed. now apply Hzip.
Qed.

(** The fallback is the caller's: after a null result for the full
    address, the builder asks for the zip alone. *)
Lemma locate_fallback cfg w f s s0 z :
  JS.truthy (buildAddress f) = true ->
  geocode cfg w (buildAddress f) s = Ret (None, s0) ->
  f zip = Some z -> JS.truthy z = true ->
  locate cfg w f s = geocode cfg w (z ++ ", USA") s0.
Proof.
  intros Hfull Hg Hz Hzt. unfold locate. rewrite Hfull.
  unfold bind. now rewrite Hg, Hz, Hzt.
Qed.

(** When the geocoder answers every request, [geo] is computed. *)
Lemma locate_answers cfg w f s :
  (forall address, geocoder_answers cfg w address = true) ->
  exists g s1, locate cfg w f s = Ret (g, s1).
Proof.
  intros Hans. unfold locate.
  destruct (JS.truthy (buildAddress f)); [|now exists None, s].
  unfold bind.
  destruct (geocode_answers cfg w (buildAddress f) s (Hans _))
    as (g0 & s0 & H0 & _).
  rewrite H0.
  destruct g0 as [x|]; [now exists (Some x), s0|].
  destruct (f zip) as [z|]; [|now exists None, s0].
  destruct (JS.truthy z); [|now exists None, s0].
  destruct (geocode_answers cfg w (z ++ ", USA") s0 (Hans _))
    as (g1 & s1 & H1 & _).
  now exists g1, s1.
Qed.

Lemma record_of_unlocated contact f :
  lat (record_of contact f None) = None
  /\ lng (record_of contact f None) = None
  /\ geoSource (record_of contact f None) = None.
Proof. repeat split. Qed.

(** The coordinates of a record are those of [geo] when each is a number
    other than zero. *)
Lemma record_of_located contact f g :
  JS.truthy_num (g_lat g) = true ->
  JS.truthy_num (g_lng g) = true ->
  g_source g = "nominatim" \/ g_source g = "google" ->
  lat (record_of contact f (Some g)) = Some (g_lat g)
  /\ lng (record_of contact f (Some g)) = Some (g_lng g)
  /\ geoSource (record_of contact f (Some g)) = Some (g_source g).
Proof.
  intros Hlat Hlng Hsrc. cbn [record_of lat lng geoSource].
  unfold JS.num_or_null. rewrite Hlat, Hlng.
  destruct Hsrc as [-> | ->]; repeat split.
Qed.

(** A result of the geocode operation names one of the two sources. *)
Lemma geocode_source cfg w address s g s' :
  geocode cfg w address s = Ret (Some g, s') ->
  g_source g = "nominatim" \/ g_source g = "google".
Proof.
  unfold geocode. destruct (use_google cfg).
  - rewrite geocodeGoogle_eq.
    destruct (google_geocode w address) as [|status body]; [discriminate|].
    destruct (ok status); [|discriminate].
    destruct body as [data|]; [|discriminate].
    destruct (gg_results data) as [[|loc rest]|]; try discriminate.
    destruct (String.eqb (gg_status data) "OK"); [|discriminate].
    intros [= <- _]. now right.
  - rewrite geocodeNominatim_eq.
    destruct (nominatim w address) as [|status body]; [discriminate|].
    destruct (ok status); [|discriminate].
    destruct body as [[|r0 rest]|]; try discriminate.
    intros [= <- _]. now left.
Qed.

Lemma locate_source cfg w f s g s1 :
  locate cfg w f s = Ret (Some g, s1) ->
  g_source g = "nominatim" \/ g_source g = "google".
Proof.
  unfold locate. destruct (JS.truthy (buildAddress f)); [|discriminate].
  unfold bind.
  destruct (geocode cfg w (buildAddress f) s) as [[[g0|] s0]| |] eqn:H0;
    try discriminate.
  - intros [= <- _]. exact (geocode_source _ _ _ _ _ _ H0).
  - destruct (f zip) as [z|]; [|discriminate].
    destruct (JS.truthy z); [|discriminate].
    apply geocode_source.
Qed.

(** When an attempt succeeds with two coordinates that are numbers other
    than zero, the record has both and names its source. *)
Lemma buildPrescriber_geocoded cfg w contact f s g s1 :
  locate cfg w f s = Ret (Some g, s1) ->
  JS.truthy_num (g_lat g) = true ->
  JS.truthy_num (g_lng g) = true ->
  exists p,
    buildPrescriber cfg w contact f s = Ret (p, s1)
    /\ lat p = Some (g_lat g) /\ lng p = Some (g_lng g)
    /\ (geoSource p = Some "nominatim" \/ geoSource p = Some "google").
Proof.
  intros Hloc Hlat Hlng.
  pose proof (locate_source _ _ _ _ _ _ Hloc) as Hsrc.
  destruct (buildPrescriber_located cfg w contact f s _ s1 Hloc)
    as (p & Hp & _ & Hplat & Hplng & Hpsrc & _).
  destruct (record_of_located contact f g Hlat Hlng Hsrc)
    as (Hrlat & Hrlng & Hrsrc).
  exists p. split; [exact Hp|].
  rewrite Hplat, Hplng, Hpsrc, Hrlat, Hrlng, Hrsrc.
  split; [reflexivity|]. split; [reflexivity|].
  destruct Hsrc as [-> | ->]; auto.
Qed.

(** When both attempts fail, the record has no coordinates and no
    source. *)
Lemma buildPrescriber_not_geocoded cfg w contact f s :
  reports_failure cfg w (buildAddress f) = true ->
  (forall z, f zip = Some z ->
     reports_failure cfg w (z ++ ", USA") = true) ->
  exists p s',
    buildPrescriber cfg w contact f s = Ret (p, s')
    /\ lat p = None /\ lng p = None /\ geoSource p = None.
Proof.
  intros Hfull Hzip.
  destruct (locate_failed cfg w f s Hfull Hzip) as [s1 Hloc].
  destruct (buildPrescriber_located cfg w contact f s None s1 Hloc)
    as (p & Hp & _ & Hlat & Hlng & Hsrc & _).
  exists p, s1. split; [exact Hp|]. now rewrite Hlat, Hlng, Hsrc.
Qed.

End Builder.

(** *** The run *)

Section Run.
Import Net Pipeline.

Lemma count_eq p g k :
  count p (g, k)
  = ((g + if is_geocoded p then 1 else 0)%nat,
     (k + if is_noAddress p then 1 else 0)%nat).
Proof.
  unfold count, is_noAddress, is_geocoded.
  destruct (has_num (lat p) && has_num (lng p)); cbn [negb andb].
  - f_equal; lia.
  - destruct (JS.truthyo (full (addr p))); cbn [negb]; f_equal; lia.
Qed.

Lemma tally_eq ps :
  forall g k,
    tally ps (g, k)
    = ((g + List.length (filter is_geocoded ps))%nat,
       (k + List.length (filter is_noAddress ps))%nat).
Proof.
  induction ps as [|p r IH]; intros g k.
  - simpl. f_equal; lia.
  - unfold tally in *. cbn [fold_left filter]. rewrite count_eq, IH.
    destruct (is_geocoded p), (is_noAddress p); cbn [List.length];
      f_equal; lia.
Qed.

Lemma geocoded_or_noAddress p :
  is_geocoded p && is_noAddress p = false.
Proof. unfold is_noAddress. now destruct (is_geocoded p). Qed.

Lemma filter_disjoint_length {A} (f g : A -> bool) (l : list A) :
  (forall x, f x && g x = false) ->
  (List.length (filter f l) + List.length (filter g l)
   <= List.length l)%nat.
Proof.
  intros Hd. induction l as [|x r IH]; simpl; [lia|].
  specialize (Hd x). destruct (f x), (g x); simpl in *;
    try discriminate; lia.
Qed.

Lemma Permutation_filter_length {A} (f : A -> bool) (l l' : list A) :
  Permutation l l' ->
  List.length (filter f l) = List.length (filter f l').
Proof.
  induction 1 as [|x l l' _ IH|x y l|l l' l'' _ IH1 _ IH2]; simpl.
  - reflexivity.
  - destruct (f x); simpl; congruence.
  - destruct (f x), (f y); reflexivity.
  - congruence.
Qed.

(** The loop of [main] adds one record per contact, in order, and counts
    each as it is added. *)
Lemma process_spec cfg w contacts :
  forall ps c s ps' c' s',
    process cfg w contacts ps c s = Ret ((ps', c'), s') ->
    exists new,
      ps' = (ps ++ new)%list
      /\ map id new = map c_id contacts
      /\ c' = tally new c.
Proof.
  induction contacts as [|contact rest IH]; intros ps c s ps' c' s' H.
  - cbn in H. injection H as <- <- <-. exists []. rewrite app_nil_r. auto.
  - cbn [process] in H. unfold bind at 1 in H.
    destruct (fetchFieldValues w (c_id contact) s) as [[f s0]| |];
      try discriminate.
    unfold bind at 1 in H. rewrite buildPrescriber_eq in H.
    destruct (locate cfg w f s0) as [[g s1]| |] eqn:Hloc;
      try discriminate.
    destruct (buildPrescriber_located cfg w contact f s0 g s1 Hloc)
      as (p & Hp & Hid & _).
    rewrite buildPrescriber_eq, Hloc in Hp.
    destruct (ENRICH cfg).
    + destruct (enrichWithGoogle cfg w (record_of contact f g) s1)
        as [[e s2]| |]; try discriminate.
      injection Hp as Hp <-. rewrite Hp in H.
      apply IH in H as (new & -> & Hids & ->).
      exists (p :: new). rewrite <- app_assoc. cbn. now rewrite Hid, Hids.
    + injection Hp as Hp. rewrite Hp in H.
      apply IH in H as (new & -> & Hids & ->).
      exists (p :: new). rewrite <- app_assoc. cbn. now rewrite Hid, Hids.
Qed.

(** The loop of [main] goes through all the contacts when the field
    values of each arrive and the geocoder answers. *)
Lemma process_continues cfg w contacts :
  (forall c, In c contacts -> fetched (ac_fieldValues w (c_id c)) = true) ->
  (forall address, geocoder_answers cfg w address = true) ->
  forall ps c s,
    exists ps' c' s', process cfg w contacts ps c s = Ret ((ps', c'), s').
Proof.
  intros Hf Hg. induction contacts as [|contact rest IH]; intros ps c s.
  - now exists ps, c, s.
  - cbn [process]. unfold bind at 1.
    assert (Hc : fetched (ac_fieldValues w (c_id contact)) = true)
      by (apply Hf; now left).
    unfold fetchFieldValues, bind at 1, acFetch, bind at 1.
    unfold fetched in Hc.
    destruct (ac_fieldValues w (c_id contact)) as [|status [data|]];
      try discriminate.
    cbn [fetch ret fst snd]. rewrite Hc. cbn [negb json ret].
    unfold bind at 1.
    destruct (locate_answers cfg w (collect_fields data) s Hg)
      as (g & s1 & Hloc).
    destruct (buildPrescriber_located cfg w contact _ s g s1 Hloc)
      as (p & Hp & _).
    rewrite Hp. apply IH. intros c0 Hc0. apply Hf. now right.
Qed.

Lemma main_returns cfg w fuel s out s' :
  main cfg w fuel s = Ret (out, s') ->
  exists contacts s0 ps counters,
    fetchAllPrescribers w fuel s = Ret (contacts, s0)
    /\ process cfg w contacts [] (0, 0)%nat s0 = Ret ((ps, counters), s')
    /\ total (document out) = List.length ps
    /\ geocoded (document out) = fst counters
    /\ noAddress (document out) = snd counters
    /\ prescribers (document out)
       = JS.sort (fun a b => (localeCompare w (name a) (name b) <=? 0)%Z)
                 ps.
Proof.
  unfold main.
  destruct (negb (JS.truthyo (AC_BASE_URL cfg))
            || negb (JS.truthyo (AC_API_KEY cfg))); [discriminate|].
  unfold bind.
  destruct (fetchAllPrescribers w fuel s) as [[contacts s0]| |] eqn:Hf;
    try discriminate.
  destruct (process cfg w contacts [] (0, 0)%nat s0)
    as [[[ps counters] s1]| |] eqn:Hp; try discriminate.
  cbn [fst snd]. intros H.
  exists contacts, s0, ps, counters.
  split; [reflexivity|].
  destruct (DRY_RUN cfg); injection H as <- <-;
    (split; [exact Hp|]); repeat split.
Qed.

(** A run completes, with one record per contact, when the credentials
    are set, the pages arrive up to a last page, the field values of each
    contact arrive and the geocoder answers. *)
Lemma main_completes cfg w k s :
  JS.truthyo (AC_BASE_URL cfg) = true ->
  JS.truthyo (AC_API_KEY cfg) = true ->
  last_page w k = true ->
  (forall i, (i < k)%nat -> last_page w i = false) ->
  (forall i, (i <= k)%nat -> page_data w i <> None) ->
  (forall c, In c (gathered w (S k)) ->
     fetched (ac_fieldValues w (c_id c)) = true) ->
  (forall address, geocoder_answers cfg w address = true) ->
  forall fuel, (k < fuel)%nat ->
    exists out s',
      main cfg w fuel s = Ret (out, s')
      /\ total (document out) = List.length (gathered w (S k)).
Proof.
  intros Hurl Hkey Hlast Hnot Hdata Hf Hg fuel Hfuel.
  unfold main. rewrite Hurl, Hkey. cbn [negb orb]. unfold bind.
  unfold fetchAllPrescribers.
  change (fetchAll_loop w fuel 0 [] s)
    with (fetchAll_loop w fuel (0 * BATCH_SIZE) (gathered w 0) s).
  rewrite (fetchAll_loop_returns w k 0 s Hlast Hnot Hdata fuel Hfuel).
  cbn [Nat.add].
  destruct (process_continues cfg w (gathered w (S k)) Hf Hg
              [] (0, 0)%nat s) as (ps & counters & s' & Hp).
  rewrite Hp. cbn [fst snd].
  apply process_spec in Hp as (new & Hnew & Hids & _).
  cbn [app] in Hnew. subst new.
  assert (Hlen : List.length ps = List.length (gathered w (S k))).
  { rewrite <- (length_map id ps), Hids. apply length_map. }
  destruct (DRY_RUN cfg); eexists; eexists; (split; [reflexivity|]);
    exact Hlen.
Qed.

(** C10. In the document of every run that completes, [total] is the
    number of records; [geocoded] counts the records with both
    coordinates and [noAddress] the records without them and without a
    full address, so no record is counted twice and the two counters
    together do not exceed [total]; a record with a full address and
    without coordinates is counted by neither. *)
Theorem C10_document_counters
    (cfg : config) (w : world) (fuel : nat) (s : pstate)
    (out : outcome) (s' : pstate) :
  main cfg w fuel s = Ret (out, s') ->
  let doc := document out in
  total doc = List.length (prescribers doc)
  /\ geocoded doc = List.length (filter is_geocoded (prescribers doc))
  /\ noAddress doc = List.length (filter is_noAddress (prescribers doc))
  /\ (forall p, is_geocoded p && is_noAddress p = false)
  /\ (geocoded doc + noAddress doc <= total doc)%nat
  /\ (forall p counters,
        JS.truthyo (full (addr p)) = true ->
        has_num (lat p) && has_num (lng p) = false ->
        is_geocoded p = false /\ is_noAddress p = false
        /\ count p counters = counters).
Proof.
  intros H doc.
  destruct (main_returns cfg w fuel s out s' H)
    as (contacts & s0 & ps & counters & _ & Hproc & Ht & Hg & Hn & Hps).
  apply process_spec in Hproc as (new & Hnew & _ & Hc).
  cbn [app] in Hnew. subst new. rewrite tally_eq in Hc. subst counters.
  cbn [fst snd Nat.add] in Hg, Hn.
  set (before := fun a b : prescriber =>
                   (localeCompare w (name a) (name b) <=? 0)%Z) in *.
  assert (Hperm : Permutation ps (prescribers doc))
    by (unfold doc; rewrite Hps; apply sort_perm).
  assert (Hlen : total doc = List.length (prescribers doc)).
  { unfold doc. rewrite Ht. now apply Permutation_length. }
  assert (Hgeo : geocoded doc
                 = List.length (filter is_geocoded (prescribers doc))).
  { unfold doc at 1. rewrite Hg. now apply Permutation_filter_length. }
  assert (Hno : noAddress doc
                = List.length (filter is_noAddress (prescribers doc))).
  { unfold doc at 1. rewrite Hn. now apply Permutation_filter_length. }
  split; [exact Hlen|]. split; [exact Hgeo|]. split; [exact Hno|].
  split; [exact geocoded_or_noAddress|]. split.
  - rewrite Hlen, Hgeo, Hno.
    apply filter_disjoint_length, geocoded_or_noAddress.
  - intros p [g k] Hfull Hcoords.
    assert (Hg' : is_geocoded p = false) by exact Hcoords.
    assert (Hn' : is_noAddress p = false).
    { unfold is_noAddress. rewrite Hfull. apply andb_false_r. }
    split; [exact Hg'|]. split; [exact Hn'|].
    rewrite count_eq, Hg', Hn'. f_equal; lia.
Qed.

End Run.


Section PipelineWitnesses.
Import Net Pipeline Samples.

Lemma C8_pagination_witness :
  last_page geocoders_down 1 = true
  /\ exists fuel r,
       r <> OutOfFuel
       /\ forall fuel', (fuel <= fuel')%nat ->
            fetchAllPrescribers geocoders_down fuel' initial = r.
Proof.
  assert (H : last_page geocoders_down 1 = true) by reflexivity.
  split; [exact H|].
  destruct (C8_pagination_ends_at_last_page geocoders_down 1 initial H)
    as (fuel & r & Hr & Hall & _).
  now exists fuel, r.
Defined.

(** Without a last page the loop does not end: the bound on pagination
    is the empty page, not the total. *)
Lemma pagination_endless fuel :
  forall offset all s, fetchAll_loop endless fuel offset all s = OutOfFuel.
Proof.
  induction fuel as [|fuel IH]; intros offset all s; [reflexivity|].
  cbn [fetchAll_loop]. unfold bind, acFetch, bind. cbn.
  rewrite orb_false_r.
  replace (length_reaches (all ++ [ada]) None) with false by reflexivity.
  apply IH.
Qed.

Lemma C2_geocode_witness :
  reports_failure cfg_free geocoders_down "19104, USA" = true
  /\ exists s', geocode cfg_free geocoders_down "19104, USA" initial
                = Ret (None, s').
Proof.
  assert (H : reports_failure cfg_free geocoders_down "19104, USA" = true)
    by reflexivity.
  split; [exact H|].
  destruct (C2_geocode_null_on_reported_failure
              cfg_free geocoders_down "19104, USA" initial)
    as (_ & _ & Hnull).
  exact (Hnull H).
Defined.

Lemma C10_counters_witness :
  match main cfg_free geocoders_down 2 initial with
  | Ret (out, _) =>
      total (document out) = List.length (prescribers (document out))
      /\ (geocoded (document out) + noAddress (document out)
          <= total (document out))%nat
  | _ => False
  end.
Proof.
  destruct (main cfg_free geocoders_down 2 initial) as [[out s']| |] eqn:E.
  - destruct (C10_document_counters _ _ _ _ _ _ E)
      as (Ht & _ & _ & _ & Hle & _).
    split; [exact Ht | exact Hle].
  - vm_compute in E. discriminate.
  - vm_compute in E. discriminate.
Defined.

(** C5, at an address that the paid geocoder places on the prime
    meridian: the record has a latitude and a source, and no longitude. *)
Theorem C5_zero_longitude_leaves_lat_without_lng :
  exists p s',
    buildPrescriber cfg_paid on_the_meridian ada meridian_fields initial
    = Ret (p, s')
    /\ lat p = Some 51.5%float
    /\ lng p = None
    /\ geoSource p = Some "google".
Proof.
  eexists. eexists. split; [vm_compute; reflexivity|]. repeat split.
Qed.

End PipelineWitnesses.

Section RecoverableErrors.
Import Net Pipeline Samples.

(** C3, as stated, at a run of two contacts in which the field values of
    the first cannot be fetched (status 500): the run is aborted by the
    exception of [acFetch]; no record is degraded and the second contact
    is not reached. *)
Lemma C3_field_fetch_failure_aborts_run :
  fetched (ac_fieldValues field_values_down (c_id ada)) = false
  /\ fetchAllPrescribers field_values_down 2 initial
     = Ret ([ada; bo], initial)
  /\ main cfg_free field_values_down 2 initial = Threw "AC API error".
Proof. repeat split. Qed.

(** C3, amended. For every contact whose field values arrive: when the
    geocoder reports a failure for the full address and for the zip, the
    record is built with null coordinates and source; when the places
    lookup fails in any way, the record is built with a null health
    system and unverified; and the loop goes through all the contacts,
    one record each, as long as the geocoder answers its requests.  When
    the field values of a contact do not arrive, the loop throws. *)
Theorem C3_geocode_and_enrichment_failures_degrade
    (cfg : config) (w : world) :
  (forall contact f s,
     reports_failure cfg w (buildAddress f) = true ->
     (forall z, f zip = Some z ->
        reports_failure cfg w (z ++ ", USA") = true) ->
     exists p s',
       buildPrescriber cfg w contact f s = Ret (p, s')
       /\ lat p = None /\ lng p = None /\ geoSource p = None)
  /\ (forall contact f s g s1,
        locate cfg w f s = Ret (g, s1) ->
        places_failed
          (google_places w (places_query (record_of contact f g))) = true ->
        exists p,
          buildPrescriber cfg w contact f s = Ret (p, s1)
          /\ healthSystem p = None /\ verified p = false)
  /\ (forall contacts s,
        (forall c, In c contacts ->
           fetched (ac_fieldValues w (c_id c)) = true) ->
        (forall address, geocoder_answers cfg w address = true) ->
        exists ps counters s',
          process cfg w contacts [] (0, 0)%nat s = Ret ((ps, counters), s')
          /\ map id ps = map c_id contacts)
  /\ (forall contact rest ps counters s,
        fetched (ac_fieldValues w (c_id contact)) = false ->
        exists msg,
          process cfg w (contact :: rest) ps counters s = Threw msg).
Proof.
  split; [|split; [|split]].
  - intros contact f s. apply buildPrescriber_not_geocoded.
  - intros contact f s g s1 Hloc Hfail.
    rewrite buildPrescriber_eq, Hloc.
    destruct (ENRICH cfg).
    + rewrite (enrichWithGoogle_failed cfg w _ s1 Hfail).
      eexists. split; [reflexivity|]. split; reflexivity.
    + eexists. split; [reflexivity|]. split; reflexivity.
  - intros contacts s Hf Hg.
    destruct (process_continues cfg w contacts Hf Hg [] (0, 0)%nat s)
      as (ps & counters & s' & H).
    exists ps, counters, s'. split; [exact H|].
    apply process_spec in H as (new & Hnew & Hids & _).
    cbn [app] in Hnew. now subst new.
  - intros contact rest ps counters s Hf.
    cbn [process]. unfold bind at 1, fetchFieldValues, bind at 1,
      acFetch, bind at 1.
    unfold fetched in Hf.
    destruct (ac_fieldValues w (c_id contact)) as [|status body];
      [now eexists|].
    cbn [fetch ret fst snd].
    destruct (ok status); cbn [negb]; [|now eexists].
    destruct body as [data|]; [discriminate | now eexists].
Qed.

Lemma C3_geocoders_down_witness :
  (forall c, In c [ada; bo] ->
     fetched (ac_fieldValues geocoders_down (c_id c)) = true)
  /\ (forall address,
        geocoder_answers cfg_free geocoders_down address = true)
  /\ exists ps counters s',
       process cfg_free geocoders_down [ada; bo] [] (0, 0)%nat initial
       = Ret ((ps, counters), s')
       /\ map id ps = ["1"; "2"].
Proof.
  assert (Hf : forall c, In c [ada; bo] ->
                 fetched (ac_fieldValues geocoders_down (c_id c)) = true).
  { intros c [<-|[<-|[]]]; reflexivity. }
  assert (Hg : forall address,
                 geocoder_answers cfg_free geocoders_down address = true).
  { intros address. reflexivity. }
  split; [exact Hf|]. split; [exact Hg|].
  destruct (C3_geocode_and_enrichment_failures_degrade
              cfg_free geocoders_down) as (_ & _ & Hrun & _).
  exact (Hrun [ada; bo] initial Hf Hg).
Defined.

End RecoverableErrors.

Section PageWitnesses.
Import App PageSamples.
Local Open Scope R_scope.

Lemma C4_name_search_witness :
  (MIN_QUERY <= String.length (JS.trim " SMITH "))%nat
  /\ exists matches,
       doctorSearch roster " SMITH " = Shown matches
       /\ (List.length matches <= MAX_MATCHES)%nat.
Proof.
  assert (H : (MIN_QUERY <= String.length (JS.trim " SMITH "))%nat)
    by (vm_compute; lia).
  split; [exact H|].
  destruct (C4_name_search_substring_capped roster " SMITH " H)
    as (matches & Hd & _ & Hle & _).
  now exists matches.
Defined.

Lemma C6_radius_search_witness :
  valid_zip (JS.trim (zipInput (typed " 90012 "))) = true
  /\ geocodeZip zip_service (JS.trim (zipInput (typed " 90012 ")))
     = Some (34, -118)
  /\ StronglySorted distance_le (shown (doSearch zip_service
                                          (typed " 90012 ")))
  /\ forall q d,
       In q (shown (doSearch zip_service (typed " 90012 "))) ->
       distance q = Some d -> ~ 10 < d.
Proof.
  assert (Hv : valid_zip (JS.trim (zipInput (typed " 90012 "))) = true)
    by reflexivity.
  assert (Hg : geocodeZip zip_service
                 (JS.trim (zipInput (typed " 90012 ")))
               = Some (34, -118)) by reflexivity.
  split; [exact Hv|]. split; [exact Hg|].
  destruct (C6_radius_search_within_sorted_state_subset
              zip_service (typed " 90012 ") 34 (-118) Hv Hg)
    as (_ & _ & Hsorted & Hten & _).
  split; [exact Hsorted | exact (Hten eq_refl)].
Defined.

Lemma C7_search_error_witness :
  (valid_zip (JS.trim (zipInput (typed "9001"))) = false
   \/ geocodeZip zip_service (JS.trim (zipInput (typed "9001"))) = None)
  /\ shown (doSearch zip_service (typed "9001")) = roster
  /\ searchCircle (doSearch zip_service (typed "9001")) = None.
Proof.
  assert (H : valid_zip (JS.trim (zipInput (typed "9001"))) = false
              \/ geocodeZip zip_service
                   (JS.trim (zipInput (typed "9001"))) = None)
    by (left; reflexivity).
  split; [exact H|].
  destruct (C7_search_error_alerts_keeps_filter_state
              zip_service (typed "9001") H)
    as (_ & _ & _ & Hc & Hs & _).
  split; [exact Hs | exact Hc].
Defined.

(** The record at the searched point itself is found, at distance 0. *)
Lemma radius_search_finds_ann :
  In (with_distance 34 (-118) ann)
     (shown (doSearch zip_service (typed "90012"))).
Proof.
  rewrite (doSearch_resolved zip_service (typed "90012") 34 (-118)
             eq_refl eq_refl).
  cbn [doSearch_resume shown]. apply nearby_In. exists ann.
  split.
  - apply getFilteredPrescribers_In; [discriminate|].
    split; [now left | reflexivity].
  - split.
    + unfold has_coords, ann, doctor. cbn [lat lng truthy_num].
      destruct (Req_dec_T 34 0); [lra|].
      destruct (Req_dec_T (-118) 0); [lra | reflexivity].
    + split; [reflexivity|].
      cbn [ann doctor lat lng num]. rewrite haversine_self.
      cbn [typed radiusSelect]. lra.
Qed.

End PageWitnesses.

(* ------------------------------------------------------------------ *)
(** ** Further properties of the pipeline *)

(** *** Field values *)

Section FieldValues.
Import Net Pipeline.

Lemma field_name_eqb_eq a b : field_name_eqb a b = true <-> a = b.
Proof. destruct a, b; simpl; split; (reflexivity || discriminate). Qed.

(** One more field value: a recognized id with a value that is not blank
    sets its field, any other leaves the fields as they are. *)
Lemma collect_fields_snoc data fv :
  collect_fields (data ++ [fv])
  = match FIELD_MAP (fv_field fv), fv_value fv with
    | Some name, Some v =>
        if JS.truthy v then set_field (collect_fields data) name v
        else collect_fields data
    | _, _ => collect_fields data
    end.
Proof. unfold collect_fields. now rewrite fold_left_app. Qed.

(** X1. The fields that [fetchFieldValues] returns hold only values that are
    not blank, each the value of a field value of the response whose id
    [FIELD_MAP] maps to the field. *)
Theorem collect_fields_sound (data : list field_value)
    (name : field_name) (v : string) :
  collect_fields data name = Some v ->
  v <> ""
  /\ exists fv, In fv data
       /\ FIELD_MAP (fv_field fv) = Some name
       /\ fv_value fv = Some v.
Proof.
  induction data as [|fv data IH] using rev_ind.
  - discriminate.
  - rewrite collect_fields_snoc.
    assert (Hold : collect_fields data name = Some v ->
                   v <> ""
                   /\ exists fv0, In fv0 (data ++ [fv])
                        /\ FIELD_MAP (fv_field fv0) = Some name
                        /\ fv_value fv0 = Some v).
    { intros H. destruct (IH H) as [Hv [fv0 [Hin Hfv0]]].
      split; [exact Hv|]. exists fv0. split; [|exact Hfv0].
      apply in_or_app. now left. }
    destruct (FIELD_MAP (fv_field fv)) as [n|] eqn:Hn; [|exact Hold].
    destruct (fv_value fv) as [x|] eqn:Hx; [|exact Hold].
    destruct (JS.truthy x) eqn:Ht; [|exact Hold].
    unfold set_field. destruct (field_name_eqb name n) eqn:He; [|exact Hold].
    apply field_name_eqb_eq in He. subst n. intros [= <-]. split.
    + intros ->. discriminate.
    + exists fv. split; [|now split].
      apply in_or_app. right. now left.
Qed.

Lemma collect_fields_sound_witness :
  collect_fields Samples.ada_fields zip = Some "19104"
  /\ "19104" <> ""
  /\ exists fv, In fv Samples.ada_fields
       /\ FIELD_MAP (fv_field fv) = Some zip
       /\ fv_value fv = Some "19104".
Proof.
  assert (H : collect_fields Samples.ada_fields zip = Some "19104")
    by reflexivity.
  split; [exact H|].
  exact (collect_fields_sound Samples.ada_fields zip "19104" H).
Defined.

(** X2. The last value of a field wins, and it leaves the other fields as
    they were; a field value with an unrecognized id or a blank value
    changes nothing. *)
Theorem collect_fields_last_wins (data : list field_value)
    (fv : field_value) :
  (forall name v,
     FIELD_MAP (fv_field fv) = Some name ->
     fv_value fv = Some v -> v <> "" ->
     collect_fields (data ++ [fv]) name = Some v
     /\ forall other, other <> name ->
          collect_fields (data ++ [fv]) other = collect_fields data other)
  /\ (FIELD_MAP (fv_field fv) = None \/ fv_value fv = None
      \/ fv_value fv = Some "" ->
      collect_fields (data ++ [fv]) = collect_fields data).
Proof.
  split.
  - intros name v Hn Hv Hne. rewrite collect_fields_snoc, Hn, Hv.
    assert (Ht : JS.truthy v = true) by (destruct v; [contradiction|easy]).
    rewrite Ht. unfold set_field. split.
    + now rewrite (proj2 (field_name_eqb_eq name name) eq_refl).
    + intros other Hother.
      destruct (field_name_eqb other name) eqn:He; [|reflexivity].
      apply field_name_eqb_eq in He. contradiction.
  - intros H. rewrite collect_fields_snoc.
    destruct (FIELD_MAP (fv_field fv)) as [n|]; [|reflexivity].
    destruct (fv_value fv) as [x|]; [|reflexivity].
    destruct H as [H|[H|H]]; try discriminate.
    injection H as ->. reflexivity.
Qed.

Lemma collect_fields_last_wins_witness :
  collect_fields (Samples.ada_fields ++ [Samples.field 8 "19103"]) zip
  = Some "19103"
  /\ collect_fields (Samples.ada_fields ++ [Samples.field 8 "19103"]) city
     = collect_fields Samples.ada_fields city
  /\ collect_fields (Samples.ada_fields ++ [Samples.field 77 "x"])
     = collect_fields Samples.ada_fields.
Proof.
  destruct (collect_fields_last_wins Samples.ada_fields
              (Samples.field 8 "19103")) as [Hset _].
  destruct (Hset zip "19103" eq_refl eq_refl ltac:(discriminate))
    as [Hzip Hother].
  split; [exact Hzip|]. split.
  - apply Hother. discriminate.
  - destruct (collect_fields_last_wins Samples.ada_fields
                (Samples.field 77 "x")) as [_ Hdrop].
    apply Hdrop. left. reflexivity.
Defined.

End FieldValues.

(** *** The record builder *)

Section RecordFields.
Import Net Pipeline.

Lemma string_app_assoc (a b c : string) : (a ++ b) ++ c = a ++ (b ++ c).
Proof. induction a as [|x a IH]; simpl; [reflexivity | now rewrite IH]. Qed.

Lemma string_app_empty (a b : string) : a ++ b = "" -> a = "".
Proof. destruct a; [reflexivity | discriminate]. Qed.

Lemma join_empty sep l :
  Forall (fun s => s <> "") l -> JS.join sep l = "" -> l = [].
Proof.
  intros Hl H. destruct l as [|x r]; [reflexivity|]. exfalso.
  inversion Hl as [|? ? Hx _]; subst. apply Hx.
  destruct r as [|y r']; simpl in H; [exact H|].
  now apply string_app_empty in H.
Qed.

(** Every element of a joined list occurs in the result. *)
Lemma join_In sep l x :
  In x l -> exists pre post, JS.join sep l = pre ++ x ++ post.
Proof.
  induction l as [|y r IH]; [intros []|].
  intros [->|Hin].
  - destruct r as [|z r'].
    + exists "", "". simpl. clear IH. induction x; simpl; congruence.
    + exists "", (sep ++ JS.join sep (z :: r')). reflexivity.
  - destruct (IH Hin) as [pre [post H]].
    destruct r as [|z r']; [destruct Hin|].
    exists (y ++ sep ++ pre), post.
    change (JS.join sep (y :: z :: r'))
      with (y ++ sep ++ JS.join sep (z :: r')).
    now rewrite H, !string_app_assoc.
Qed.

Lemma filter_Boolean_nonblank l :
  Forall (fun s => s <> "") (JS.filter_Boolean l).
Proof.
  apply Forall_forall. intros x Hx.
  now apply filter_Boolean_In in Hx as [_ Hx].
Qed.

Lemma filter_Boolean_nil l :
  JS.filter_Boolean l = [] <-> forall v, In v l -> JS.truthyo v = false.
Proof.
  induction l as [|[y|] r IH]; simpl.
  - split; [intros _ v [] | reflexivity].
  - destruct y as [|c y']; simpl.
    + rewrite IH. split.
      * intros H v [<-|Hv]; [reflexivity | now apply H].
      * intros H v Hv. apply H. now right.
    + split; [discriminate|].
      intros H. specialize (H (Some (String c y')) (or_introl eq_refl)).
      discriminate.
  - rewrite IH. split.
    + intros H v [<-|Hv]; [reflexivity | now apply H].
    + intros H v Hv. apply H. now right.
Qed.

Lemma or_null_nonblank v : nonblank (JS.or_null v).
Proof.
  unfold nonblank, JS.or_null. destruct v as [[|c r]|]; simpl; discriminate.
Qed.

(** X3. The full address is empty exactly when none of the five parts has a
    value, and then the record has no [full]; every part that has a value
    occurs in it. *)
Theorem buildAddress_parts (contact : contact) (f : fields)
    (g : option geo) :
  (buildAddress f = "" <->
   forall v, In v (address_parts f) -> JS.truthyo v = false)
  /\ (full (addr (record_of contact f g)) = None <-> buildAddress f = "")
  /\ (forall part, In (Some part) (address_parts f) -> part <> "" ->
        exists pre post, buildAddress f = pre ++ part ++ post).
Proof.
  split; [|split].
  - unfold buildAddress. fold (address_parts f).
    rewrite <- filter_Boolean_nil. split.
    + apply join_empty, filter_Boolean_nonblank.
    + now intros ->.
  - cbn [record_of addr full]. unfold JS.or_null.
    destruct (buildAddress f) as [|c r]; simpl; split;
      (reflexivity || discriminate).
  - intros part Hin Hne. unfold buildAddress. fold (address_parts f).
    apply join_In, filter_Boolean_In. now split.
Qed.

Lemma buildAddress_parts_witness :
  exists pre post,
    buildAddress (collect_fields Samples.ada_fields)
    = pre ++ "Philadelphia" ++ post.
Proof.
  destruct (buildAddress_parts Samples.ada
              (collect_fields Samples.ada_fields) None) as (_ & _ & H).
  apply H; [|discriminate].
  right. right. left. reflexivity.
Defined.

(** X4. The name of a record is never empty: it is "(unknown)" when neither
    the custom fields nor the contact give a name part; and when both
    custom name fields have a value it is made of them alone, whatever
    the contact's own names. *)
Theorem record_name_precedence (contact : contact) (f : fields)
    (g : option geo) :
  name (record_of contact f g) <> ""
  /\ (JS.truthyo (JS.or_else (f doctorFirstName) (c_firstName contact))
      = false ->
      JS.truthyo (JS.or_else (f doctorLastName) (c_lastName contact))
      = false ->
      name (record_of contact f g) = "(unknown)")
  /\ (forall first last,
        f doctorFirstName = Some first -> first <> "" ->
        f doctorLastName = Some last -> last <> "" ->
        name (record_of contact f g) = first ++ " " ++ last).
Proof.
  cbn [record_of name].
  set (parts := [JS.or_else (f doctorFirstName) (c_firstName contact);
                 JS.or_else (f doctorLastName) (c_lastName contact)]).
  split; [|split].
  - destruct (JS.join " " (JS.filter_Boolean parts)) as [|c r] eqn:H;
      simpl; discriminate.
  - intros H1 H2.
    assert (Hnil : JS.filter_Boolean parts = []).
    { apply filter_Boolean_nil. intros v [<-|[<-|[]]]; assumption. }
    now rewrite Hnil.
  - intros first last Hf Hfn Hl Hln. unfold parts, JS.or_else.
    rewrite Hf, Hl.
    destruct first as [|a first']; [contradiction|].
    destruct last as [|b last']; [contradiction|].
    reflexivity.
Qed.

Lemma record_name_precedence_witness :
  name (record_of Samples.ada
          (set_field (set_field no_fields doctorFirstName "Grace")
                     doctorLastName "Hopper") None)
  = "Grace" ++ " " ++ "Hopper".
Proof.
  destruct (record_name_precedence Samples.ada
              (set_field (set_field no_fields doctorFirstName "Grace")
                         doctorLastName "Hopper") None) as (_ & _ & H).
  apply (H "Grace" "Hopper"); (reflexivity || discriminate).
Defined.

End RecordFields.

(** *** What a built record can hold *)

Section BuiltRecords.
Import Net Pipeline.

(** What [buildPrescriber] returns, in terms of [geo] and of the result
    of the enrichment. *)
Lemma buildPrescriber_inv cfg w contact f s p s' :
  buildPrescriber cfg w contact f s = Ret (p, s') ->
  exists g s1,
    locate cfg w f s = Ret (g, s1)
    /\ ((ENRICH cfg = false /\ p = record_of contact f g /\ s' = s1)
        \/ (ENRICH cfg = true
            /\ exists e,
                 enrichWithGoogle cfg w (record_of contact f g) s1
                 = Ret (e, s1)
                 /\ p = set_enrichment (record_of contact f g) e
                 /\ s' = s1)).
Proof.
  rewrite buildPrescriber_eq.
  destruct (locate cfg w f s) as [[g s1]| |]; try discriminate.
  intros H. exists g, s1. split; [reflexivity|].
  destruct (ENRICH cfg).
  - right. split; [reflexivity|].
    destruct (enrichWithGoogle_returns cfg w (record_of contact f g) s1)
      as [e He].
    rewrite He in H. injection H as <- <-. now exists e.
  - left. injection H as <- <-. auto.
Qed.

(** The enrichment marks a record verified exactly when a key is set and
    the lookup found a place; otherwise it is the empty enrichment. *)
Lemma enrichWithGoogle_inv cfg w p s e s' :
  enrichWithGoogle cfg w p s = Ret (e, s') ->
  (e_verified e = true <->
   JS.truthyo (GOOGLE_KEY cfg) = true
   /\ places_failed (google_places w (places_query p)) = false)
  /\ (e_verified e = false -> e = no_enrichment)
  /\ nonblank (e_healthSystem e) /\ nonblank (e_googleAddress e).
Proof.
  unfold enrichWithGoogle, places_failed.
  destruct (JS.truthyo (GOOGLE_KEY cfg)); cbn [negb].
  2:{ intros [= <- _]. repeat split; try discriminate.
      intros [H _]. discriminate. }
  unfold try_catch, bind.
  destruct (google_places w (places_query p)) as [|status body].
  { intros [= <- _]. repeat split; try discriminate.
    intros [_ H]. discriminate. }
  cbn [fetch ret fst snd]. destruct (ok status); cbn [negb orb].
  2:{ intros [= <- _]. repeat split; try discriminate.
      intros [_ H]. discriminate. }
  destruct body as [data|].
  2:{ intros [= <- _]. repeat split; try discriminate.
      intros [_ H]. discriminate. }
  cbn [json ret].
  destruct (pb_results data) as [[|place rest]|].
  - intros [= <- _]. repeat split; try discriminate.
    intros [_ H]. discriminate.
  - intros [= <- _]. cbn. repeat split; try discriminate;
      apply or_null_nonblank.
  - intros [= <- _]. repeat split; try discriminate.
    intros [_ H]. discriminate.
Qed.

(** X5. Every optional text of a record that the builder returns is null or
    not empty, and its name is not empty. *)
Theorem built_record_has_no_blank_field
    (cfg : config) (w : world) (contact : contact) (f : fields)
    (s : pstate) (p : prescriber) (s' : pstate) :
  buildPrescriber cfg w contact f s = Ret (p, s') ->
  name p <> ""
  /\ nonblank (email p) /\ nonblank (phone p) /\ nonblank (organization p)
  /\ nonblank (p_specialty p) /\ nonblank (p_practiceType p)
  /\ nonblank (p_npi p)
  /\ nonblank (a_city (addr p)) /\ nonblank (a_state (addr p))
  /\ nonblank (a_zip (addr p)) /\ nonblank (full (addr p))
  /\ nonblank (geoSource p) /\ nonblank (healthSystem p)
  /\ nonblank (googleAddress p).
Proof.
  intros H.
  destruct (buildPrescriber_inv _ _ _ _ _ _ _ H) as (g & s1 & _ & Hp).
  assert (Hname : name (record_of contact f g) <> "")
    by apply (record_name_precedence contact f g).
  assert (Hsrc : nonblank (geoSource (record_of contact f g))).
  { cbn [record_of geoSource]. destruct g; [apply or_null_nonblank|].
    discriminate. }
  destruct Hp as [(_ & -> & _) | (_ & e & He & -> & _)].
  - split; [exact Hname|].
    repeat (split; [first [apply or_null_nonblank | exact Hsrc
                          | discriminate]|]).
    discriminate.
  - destruct (enrichWithGoogle_inv _ _ _ _ _ _ He) as (_ & _ & Hh & Hg).
    split; [exact Hname|].
    repeat (split; [first [apply or_null_nonblank | exact Hsrc
                          | exact Hh]|]).
    cbn [set_enrichment googleAddress].
    destruct (JS.truthyo (e_googleAddress e)); [exact Hg | discriminate].
Qed.

Lemma built_record_has_no_blank_field_witness :
  match buildPrescriber Samples.cfg_free Samples.geocoders_down Samples.bo
          no_fields initial with
  | Ret (p, _) => name p <> "" /\ nonblank (email p)
  | _ => False
  end.
Proof.
  destruct (buildPrescriber Samples.cfg_free Samples.geocoders_down
              Samples.bo no_fields initial) as [[p s']| |] eqn:E.
  - destruct (built_record_has_no_blank_field _ _ _ _ _ _ _ E)
      as (Hn & He & _).
    split; [exact Hn | exact He].
  - vm_compute in E. discriminate.
  - vm_compute in E. discriminate.
Defined.

End BuiltRecords.

Section GeocodedRecords.
Import Net Pipeline.

(** The name of the source that the configuration selects. *)
Lemma geocode_inv cfg w address s g s' :
  geocode cfg w address s = Ret (g, s') ->
  s' = (if use_google cfg then s else after_nominatim s)
  /\ forall x, g = Some x ->
       g_source x = if use_google cfg then "google" else "nominatim".
Proof.
  unfold geocode. destruct (use_google cfg).
  - rewrite geocodeGoogle_eq.
    destruct (google_geocode w address) as [|status body]; [discriminate|].
    destruct (ok status); [|intros [= <- <-]; split; [easy|discriminate]].
    destruct body as [data|]; [|discriminate].
    destruct (gg_results data) as [[|loc rest]|];
      try (intros [= <- <-]; split; [easy|discriminate]).
    destruct (String.eqb (gg_status data) "OK");
      intros [= <- <-]; split; try easy. now intros x [= <-].
  - rewrite geocodeNominatim_eq.
    destruct (nominatim w address) as [|status body]; [discriminate|].
    destruct (ok status); [|intros [= <- <-]; split; [easy|discriminate]].
    destruct body as [[|r0 rest]|]; try discriminate;
      intros [= <- <-]; split; try easy. now intros x [= <-].
Qed.

Lemma after_nominatim_paced s : paced s -> paced (after_nominatim s).
Proof.
  unfold paced, after_nominatim. cbn [geocodeCount slept pred].
  destruct (geocodeCount s) as [|n]; cbn [Nat.ltb Nat.leb pred].
  - now intros ->.
  - intros ->. clear. induction n as [|n IH]; simpl; [reflexivity|].
    now rewrite IH.
Qed.

Lemma geocode_paced cfg w address s g s' :
  geocode cfg w address s = Ret (g, s') ->
  (paced s -> paced s')
  /\ (geocodeCount s <= geocodeCount s' <= S (geocodeCount s))%nat.
Proof.
  intros H. apply geocode_inv in H as [-> _].
  destruct (use_google cfg).
  - split; [easy | lia].
  - split; [apply after_nominatim_paced|]. simpl. lia.
Qed.

(** [geo] is computed with at most two calls of the geocoder, and with
    none when there is no address. *)
Lemma locate_inv cfg w f s g s1 :
  locate cfg w f s = Ret (g, s1) ->
  (paced s -> paced s1)
  /\ (geocodeCount s <= geocodeCount s1 <= 2 + geocodeCount s)%nat
  /\ (buildAddress f = "" -> g = None /\ s1 = s)
  /\ (forall x, g = Some x ->
        g_source x = if use_google cfg then "google" else "nominatim").
Proof.
  unfold locate.
  destruct (buildAddress f) as [|c r] eqn:Hfull; cbn [JS.truthy].
  - intros [= <- <-]. repeat split; try easy; lia.
  - unfold bind.
    destruct (geocode cfg w (String c r) s) as [[g0 s0]| |] eqn:H0;
      try discriminate.
    pose proof (geocode_paced _ _ _ _ _ _ H0) as [Hp0 Hc0].
    pose proof (geocode_inv _ _ _ _ _ _ H0) as [_ Hs0].
    assert (Hdone : Ret (g0, s0) = Ret (g, s1) ->
              (paced s -> paced s1)
              /\ (geocodeCount s <= geocodeCount s1
                  <= 2 + geocodeCount s)%nat
              /\ (String c r = "" -> g = None /\ s1 = s)
              /\ (forall x, g = Some x ->
                    g_source x
                    = if use_google cfg then "google" else "nominatim")).
    { intros [= <- <-]. repeat split; try easy; lia. }
    destruct g0 as [x0|]; [exact Hdone|].
    destruct (f zip) as [z|]; [|exact Hdone].
    destruct (JS.truthy z); [|exact Hdone].
    intros H1.
    pose proof (geocode_paced _ _ _ _ _ _ H1) as [Hp1 Hc1].
    pose proof (geocode_inv _ _ _ _ _ _ H1) as [_ Hs1].
    repeat split; try easy; try lia. auto.
Qed.

(** X6. A record without a full address was never geocoded: it has no
    coordinates and no source, and building it made no call of the
    geocoder. *)
Theorem record_without_address_is_not_geocoded
    (cfg : config) (w : world) (contact : contact) (f : fields)
    (s : pstate) (p : prescriber) (s' : pstate) :
  buildPrescriber cfg w contact f s = Ret (p, s') ->
  full (addr p) = None ->
  lat p = None /\ lng p = None /\ geoSource p = None /\ s' = s.
Proof.
  intros H Hfull.
  destruct (buildPrescriber_inv _ _ _ _ _ _ _ H) as (g & s1 & Hloc & Hp).
  assert (Hf : full (addr p) = full (addr (record_of contact f g))).
  { destruct Hp as [(_ & -> & _) | (_ & e & _ & -> & _)]; reflexivity. }
  rewrite Hf in Hfull.
  apply (proj1 (proj2 (buildAddress_parts contact f g))) in Hfull.
  destruct (locate_inv _ _ _ _ _ _ Hloc) as (_ & _ & Hnone & _).
  destruct (Hnone Hfull) as [-> ->].
  destruct Hp as [(_ & -> & ->) | (_ & e & _ & -> & ->)]; repeat split.
Qed.

Lemma record_without_address_witness :
  match buildPrescriber Samples.cfg_free Samples.on_the_meridian
          Samples.bo no_fields initial with
  | Ret (p, s') => lat p = None /\ geoSource p = None /\ s' = initial
  | _ => False
  end.
Proof.
  destruct (buildPrescriber Samples.cfg_free Samples.on_the_meridian
              Samples.bo no_fields initial) as [[p s']| |] eqn:E.
  - assert (Hfull : full (addr p) = None).
    { vm_compute in E. injection E as <- _. reflexivity. }
    destruct (record_without_address_is_not_geocoded _ _ _ _ _ _ _ E Hfull)
      as (Hlat & _ & Hsrc & Hs).
    auto.
  - vm_compute in E. discriminate.
  - vm_compute in E. discriminate.
Defined.

(** X7. A record with a coordinate or a source has a full address, and its
    source is the one that the configuration selects: "google" when the
    paid geocoder is asked for and a key is set, "nominatim" otherwise. *)
Theorem record_source_follows_configuration
    (cfg : config) (w : world) (contact : contact) (f : fields)
    (s : pstate) (p : prescriber) (s' : pstate) :
  buildPrescriber cfg w contact f s = Ret (p, s') ->
  lat p <> None \/ lng p <> None \/ geoSource p <> None ->
  full (addr p) <> None
  /\ geoSource p
     = Some (if String.eqb (GEOCODER cfg) "google"
                && JS.truthyo (GOOGLE_KEY cfg)
             then "google" else "nominatim").
Proof.
  intros H Hsome. split.
  - intros Hfull.
    destruct (record_without_address_is_not_geocoded _ _ _ _ _ _ _ H Hfull)
      as (Hlat & Hlng & Hsrc & _).
    destruct Hsome as [Hs|[Hs|Hs]]; contradiction.
  - destruct (buildPrescriber_inv _ _ _ _ _ _ _ H) as (g & s1 & Hloc & Hp).
    destruct (locate_inv _ _ _ _ _ _ Hloc) as (_ & _ & _ & Hsrc).
    fold (use_google cfg).
    assert (Hg : geoSource p = geoSource (record_of contact f g)
                 /\ lat p = lat (record_of contact f g)
                 /\ lng p = lng (record_of contact f g)).
    { destruct Hp as [(_ & -> & _) | (_ & e & _ & -> & _)]; auto. }
    destruct Hg as (Hgs & Hglat & Hglng).
    rewrite Hgs, Hglat, Hglng in *. clear Hgs Hglat Hglng.
    destruct g as [x|].
    + cbn [record_of geoSource]. rewrite (Hsrc x eq_refl).
      now destruct (use_google cfg).
    + cbn in Hsome. destruct Hsome as [Hs|[Hs|Hs]]; contradiction.
Qed.

Lemma record_source_witness :
  match buildPrescriber Samples.cfg_paid Samples.on_the_meridian
          Samples.ada Samples.meridian_fields initial with
  | Ret (p, _) => full (addr p) <> None /\ geoSource p = Some "google"
  | _ => False
  end.
Proof.
  destruct (buildPrescriber Samples.cfg_paid Samples.on_the_meridian
              Samples.ada Samples.meridian_fields initial)
    as [[p s']| |] eqn:E.
  - assert (Hlat : lat p <> None).
    { vm_compute in E. injection E as <- _. discriminate. }
    exact (record_source_follows_configuration _ _ _ _ _ _ _ E
             (or_introl Hlat)).
  - vm_compute in E. discriminate.
  - vm_compute in E. discriminate.
Defined.

(** X8. A record is verified exactly when the enrichment is enabled, a key
    is set and the places lookup for the record found a place; a record
    that is not verified has no health system and no second address. *)
Theorem record_verified_iff_place_found
    (cfg : config) (w : world) (contact : contact) (f : fields)
    (s : pstate) (p : prescriber) (s' : pstate) :
  buildPrescriber cfg w contact f s = Ret (p, s') ->
  (verified p = true <->
   ENRICH cfg = true
   /\ JS.truthyo (GOOGLE_KEY cfg) = true
   /\ places_failed (google_places w (places_query p)) = false)
  /\ (verified p = false ->
      healthSystem p = None /\ googleAddress p = None).
Proof.
  intros H.
  destruct (buildPrescriber_inv _ _ _ _ _ _ _ H) as (g & s1 & _ & Hp).
  destruct Hp as [(Hen & -> & _) | (Hen & e & He & -> & _)].
  - rewrite Hen. split; [|now split]. split; [discriminate|].
    intros [Hx _]. discriminate.
  - rewrite Hen.
    destruct (enrichWithGoogle_inv _ _ _ _ _ _ He) as (Hv & Hno & _).
    change (places_query (set_enrichment (record_of contact f g) e))
      with (places_query (record_of contact f g)).
    cbn [set_enrichment verified healthSystem googleAddress]. split.
    + rewrite Hv. tauto.
    + intros Hf. now rewrite (Hno Hf).
Qed.

Lemma record_verified_witness :
  match buildPrescriber Samples.cfg_free Samples.geocoders_down
          Samples.ada no_fields initial with
  | Ret (p, _) => verified p = false /\ healthSystem p = None
  | _ => False
  end.
Proof.
  destruct (buildPrescriber Samples.cfg_free Samples.geocoders_down
              Samples.ada no_fields initial) as [[p s']| |] eqn:E.
  - destruct (record_verified_iff_place_found _ _ _ _ _ _ _ E)
      as [_ Hno].
    assert (Hv : verified p = false).
    { vm_compute in E. injection E as <- _. reflexivity. }
    split; [exact Hv | exact (proj1 (Hno Hv))].
  - vm_compute in E. discriminate.
  - vm_compute in E. discriminate.
Defined.

End GeocodedRecords.

(** *** The run as a whole *)

Section WholeRun.
Import Net Pipeline.

Lemma acFetch_state {A} (r : response A) s a s' :
  acFetch r s = Ret (a, s') -> s' = s.
Proof.
  unfold acFetch, bind. destruct r as [|status body]; [discriminate|].
  cbn [fetch ret fst snd]. destruct (ok status); cbn [negb];
    [|discriminate].
  destruct body; [|discriminate]. now intros [= _ <-].
Qed.

Lemma fetchAll_loop_state w fuel :
  forall offset all s l s',
    fetchAll_loop w fuel offset all s = Ret (l, s') -> s' = s.
Proof.
  induction fuel as [|fuel IH]; intros offset all s l s'; [discriminate|].
  cbn [fetchAll_loop]. unfold bind at 1.
  destruct (acFetch (ac_contacts w offset) s) as [[data s0]| |] eqn:Hd;
    try discriminate.
  apply acFetch_state in Hd. subst s0.
  destruct (_ || _).
  - now intros [= _ <-].
  - apply IH.
Qed.

Lemma fetchFieldValues_state w contactId s f s' :
  fetchFieldValues w contactId s = Ret (f, s') -> s' = s.
Proof.
  unfold fetchFieldValues, bind.
  destruct (acFetch (ac_fieldValues w contactId) s) as [[data s0]| |] eqn:Hd;
    try discriminate.
  apply acFetch_state in Hd. subst s0. now intros [= _ <-].
Qed.

Lemma process_paced cfg w contacts :
  forall ps c s r s',
    process cfg w contacts ps c s = Ret (r, s') ->
    (paced s -> paced s')
    /\ (geocodeCount s <= geocodeCount s'
        <= 2 * List.length contacts + geocodeCount s)%nat.
Proof.
  induction contacts as [|contact rest IH]; intros ps c s r s' H.
  - cbn in H. injection H as _ <-. split; [easy | simpl; lia].
  - cbn [process] in H. unfold bind at 1 in H.
    destruct (fetchFieldValues w (c_id contact) s) as [[f s0]| |] eqn:Hf;
      try discriminate.
    apply fetchFieldValues_state in Hf. subst s0.
    unfold bind at 1 in H.
    destruct (buildPrescriber cfg w contact f s) as [[p s1]| |] eqn:Hb;
      try discriminate.
    destruct (buildPrescriber_inv _ _ _ _ _ _ _ Hb)
      as (g & s2 & Hloc & Hp).
    assert (Hs : s1 = s2).
    { destruct Hp as [(_ & _ & ->) | (_ & e & _ & _ & ->)]; reflexivity. }
    subst s2.
    destruct (locate_inv _ _ _ _ _ _ Hloc) as (Hp1 & Hc1 & _).
    destruct (IH _ _ _ _ _ H) as [Hp2 Hc2].
    split; [auto|]. cbn [List.length]. lia.
Qed.

Lemma locate_state_paid cfg w f s g s1 :
  use_google cfg = true ->
  locate cfg w f s = Ret (g, s1) -> s1 = s.
Proof.
  intros Hpaid. unfold locate.
  destruct (JS.truthy (buildAddress f)); [|now intros [= _ <-]].
  unfold bind.
  destruct (geocode cfg w (buildAddress f) s) as [[g0 s0]| |] eqn:H0;
    try discriminate.
  apply geocode_inv in H0 as [H0 _]. rewrite Hpaid in H0. subst s0.
  destruct g0 as [x0|]; [now intros [= _ <-]|].
  destruct (f zip) as [z|]; [|now intros [= _ <-]].
  destruct (JS.truthy z); [|now intros [= _ <-]].
  intros H1. apply geocode_inv in H1 as [H1 _]. now rewrite Hpaid in H1.
Qed.

Lemma process_state_paid cfg w contacts :
  use_google cfg = true ->
  forall ps c s r s',
    process cfg w contacts ps c s = Ret (r, s') -> s' = s.
Proof.
  intros Hpaid.
  induction contacts as [|contact rest IH]; intros ps c s r s' H.
  - cbn in H. now injection H as _ <-.
  - cbn [process] in H. unfold bind at 1 in H.
    destruct (fetchFieldValues w (c_id contact) s) as [[f s0]| |] eqn:Hf;
      try discriminate.
    apply fetchFieldValues_state in Hf. subst s0.
    unfold bind at 1 in H.
    destruct (buildPrescriber cfg w contact f s) as [[p s1]| |] eqn:Hb;
      try discriminate.
    destruct (buildPrescriber_inv _ _ _ _ _ _ _ Hb)
      as (g & s2 & Hloc & Hp).
    assert (Hs : s1 = s2).
    { destruct Hp as [(_ & _ & ->) | (_ & e & _ & _ & ->)]; reflexivity. }
    subst s2. apply (locate_state_paid _ _ _ _ _ _ Hpaid) in Hloc.
    subst s1. now apply IH in H.
Qed.

(** X9. The account of the delays over a run that completes: the delays
    slept are of 1100 ms each and one fewer than the calls of the free
    geocoder (none when it was not called); the free geocoder is called
    at most twice per record; and when the paid geocoder is selected the
    run sleeps no delay and counts no call. *)
Theorem run_paces_and_bounds_geocoding
    (cfg : config) (w : world) (fuel : nat) (s : pstate)
    (out : outcome) (s' : pstate) :
  main cfg w fuel s = Ret (out, s') ->
  paced s ->
  slept s' = repeat 1100%nat (pred (geocodeCount s'))
  /\ (geocodeCount s <= geocodeCount s'
      <= 2 * total (document out) + geocodeCount s)%nat
  /\ (use_google cfg = true -> s' = s).
Proof.
  intros H Hpaced.
  destruct (main_returns _ _ _ _ _ _ H)
    as (contacts & s0 & ps & counters & Hf & Hp & Ht & _).
  apply fetchAll_loop_state in Hf. subst s0.
  destruct (process_paced _ _ _ _ _ _ _ _ Hp) as [Hp' Hc].
  pose proof (fun Hpaid => process_state_paid cfg w contacts Hpaid
                             _ _ _ _ _ Hp) as Hsame.
  apply process_spec in Hp as (new & Hnew & Hids & _).
  cbn [app] in Hnew. subst new.
  assert (Hlen : List.length ps = List.length contacts).
  { rewrite <- (length_map id ps), Hids. apply length_map. }
  split; [exact (Hp' Hpaced)|]. split; [|exact Hsame].
  rewrite Ht, Hlen. lia.
Qed.

Lemma run_paces_witness :
  match main Samples.cfg_free Samples.geocoders_down 2 initial with
  | Ret (out, s') =>
      slept s' = repeat 1100%nat (pred (geocodeCount s'))
      /\ (geocodeCount s' <= 2 * total (document out) + 0)%nat
  | _ => False
  end.
Proof.
  destruct (main Samples.cfg_free Samples.geocoders_down 2 initial)
    as [[out s']| |] eqn:E.
  - destruct (run_paces_and_bounds_geocoding _ _ _ _ _ _ E eq_refl)
      as (Hs & [_ Hc] & _).
    split; [exact Hs | exact Hc].
  - vm_compute in E. discriminate.
  - vm_compute in E. discriminate.
Defined.

(** X10. A first page that carries no total ends the pagination: the contacts
    of the later pages are never asked for. *)
Theorem missing_total_ends_pagination
    (w : world) (status : nat) (data : contacts_page)
    (fuel : nat) (s : pstate) :
  ac_contacts w 0 = Response status (Some data) ->
  ok status = true ->
  pg_meta_total data = None \/ pg_meta_total data = Some "" ->
  fetchAllPrescribers w (S fuel) s
  = Ret (match pg_contacts data with Some l => l | None => [] end, s).
Proof.
  intros Hr Hok Htotal.
  unfold fetchAllPrescribers. cbn [fetchAll_loop].
  unfold bind, acFetch, bind. rewrite Hr. cbn [fetch ret fst snd].
  rewrite Hok. cbn [negb json ret app].
  replace (JS.or_else (pg_meta_total data) (Some "0")) with (Some "0")
    by (destruct Htotal as [-> | ->]; reflexivity).
  replace (parseInt10 "0") with (Some 0%Z) by reflexivity.
  cbn [length_reaches].
  destruct (pg_contacts data) as [l|]; cbn [List.length];
    now replace (0 <=? Z.of_nat _)%Z with true
      by (symmetry; apply Z.leb_le; lia).
Qed.

End WholeRun.

Section WholeRunDocument.
Import Net Pipeline.

Lemma missing_total_witness :
  fetchAllPrescribers Samples.untold 5 initial
  = Ret ([Samples.ada], initial).
Proof.
  exact (missing_total_ends_pagination Samples.untold 200 _ 4 initial
           eq_refl eq_refl (or_introl eq_refl)).
Defined.

(** X11. When the comparison of the host never puts two names in both orders,
    the records of the document are in ascending order of name, each
    name at most the next; and they are the records of the contacts
    fetched, one each. *)
Theorem document_is_sorted_by_name
    (cfg : config) (w : world) (fuel : nat) (s : pstate)
    (out : outcome) (s' : pstate) :
  main cfg w fuel s = Ret (out, s') ->
  (forall x y, (0 < localeCompare w x y)%Z ->
               (localeCompare w y x <= 0)%Z) ->
  Sorted (name_le w) (prescribers (document out))
  /\ exists contacts s0,
       fetchAllPrescribers w fuel s = Ret (contacts, s0)
       /\ Permutation (map c_id contacts)
                      (map id (prescribers (document out))).
Proof.
  intros H Hcmp.
  destruct (main_returns _ _ _ _ _ _ H)
    as (contacts & s0 & ps & counters & Hf & Hp & _ & _ & _ & Hps).
  rewrite Hps. split.
  - apply (sort_Sorted _ (name_le w) (fun _ => True)).
    + intros a b _ _ Hb. unfold name_le. now apply Z.leb_le.
    + intros a b _ _ Hb. unfold name_le. apply Hcmp.
      apply Z.leb_gt in Hb. exact Hb.
    + apply Forall_forall. easy.
  - exists contacts, s0. split; [exact Hf|].
    apply process_spec in Hp as (new & Hnew & Hids & _).
    cbn [app] in Hnew. subst new. rewrite <- Hids.
    apply Permutation_map, sort_perm.
Qed.

Lemma by_code_antisym x y :
  (0 < Samples.by_code x y)%Z -> (Samples.by_code y x <= 0)%Z.
Proof.
  unfold Samples.by_code. rewrite (String.compare_antisym y x).
  destruct (String.compare x y); simpl; lia.
Qed.

Lemma document_is_sorted_witness :
  match main Samples.cfg_free Samples.geocoders_down 2 initial with
  | Ret (out, _) =>
      Sorted (name_le Samples.geocoders_down) (prescribers (document out))
  | _ => False
  end.
Proof.
  destruct (main Samples.cfg_free Samples.geocoders_down 2 initial)
    as [[out s']| |] eqn:E.
  - exact (proj1 (document_is_sorted_by_name _ _ _ _ _ _ E by_code_antisym)).
  - vm_compute in E. discriminate.
  - vm_compute in E. discriminate.
Defined.

Lemma geocode_with_dry_run dry cfg w address :
  geocode (with_dry_run dry cfg) w address = geocode cfg w address.
Proof. reflexivity. Qed.

Lemma buildPrescriber_with_dry_run dry cfg w contact f :
  buildPrescriber (with_dry_run dry cfg) w contact f
  = buildPrescriber cfg w contact f.
Proof. reflexivity. Qed.

Lemma process_with_dry_run dry cfg w contacts :
  forall ps c s,
    process (with_dry_run dry cfg) w contacts ps c s
    = process cfg w contacts ps c s.
Proof.
  induction contacts as [|contact rest IH]; intros ps c s; [reflexivity|].
  cbn [process]. unfold bind at 1 3.
  destruct (fetchFieldValues w (c_id contact) s) as [[f s0]| |];
    try reflexivity.
  unfold bind at 1 2. rewrite buildPrescriber_with_dry_run.
  destruct (buildPrescriber cfg w contact f s0) as [[p s1]| |];
    try reflexivity.
  apply IH.
Qed.

(** X12. The dry run computes the document of the real run and writes
    nothing; the real run writes that one document to both paths. *)
Theorem dry_run_writes_nothing
    (cfg : config) (w : world) (fuel : nat) (s : pstate)
    (out : outcome) (s' : pstate) :
  main cfg w fuel s = Ret (out, s') ->
  main (with_dry_run true cfg) w fuel s
  = Ret ({| document := document out; written := [] |}, s')
  /\ main (with_dry_run false cfg) w fuel s
     = Ret ({| document := document out;
               written := [(OUTPUT_PATH, document out);
                           (PUBLIC_OUTPUT, document out)] |}, s').
Proof.
  unfold main. cbn [with_dry_run AC_BASE_URL AC_API_KEY DRY_RUN].
  destruct (negb (JS.truthyo (AC_BASE_URL cfg))
            || negb (JS.truthyo (AC_API_KEY cfg))); [discriminate|].
  unfold bind.
  destruct (fetchAllPrescribers w fuel s) as [[contacts s0]| |];
    try discriminate.
  rewrite !process_with_dry_run.
  destruct (process cfg w contacts [] (0, 0)%nat s0)
    as [[r s1]| |]; try discriminate.
  intros H.
  destruct (DRY_RUN cfg); injection H as <- <-; split; reflexivity.
Qed.

Lemma dry_run_witness :
  match main Samples.cfg_free Samples.geocoders_down 2 initial with
  | Ret (out, s') =>
      main (with_dry_run true Samples.cfg_free) Samples.geocoders_down
           2 initial
      = Ret ({| document := document out; written := [] |}, s')
  | _ => False
  end.
Proof.
  destruct (main Samples.cfg_free Samples.geocoders_down 2 initial)
    as [[out s']| |] eqn:E.
  - exact (proj1 (dry_run_writes_nothing _ _ _ _ _ _ E)).
  - vm_compute in E. discriminate.
  - vm_compute in E. discriminate.
Defined.

End WholeRunDocument.

(* ------------------------------------------------------------------ *)
(** ** Further properties of the browser code *)

(** *** The page between events *)

Section PageEvents.
Import App.
Local Open Scope R_scope.

Lemma getFilteredPrescribers_incl all st p :
  In p (getFilteredPrescribers all st) -> In p all.
Proof.
  unfold getFilteredPrescribers. destruct (negb (JS.truthy st)); [easy|].
  intros H. now apply filter_In in H.
Qed.

Lemma consistent_alert msg st : consistent st -> consistent (alert msg st).
Proof. intros [H1 H2 H3 H4 H5]. now constructor. Qed.

Lemma consistent_doSearch_resume zip r geo st :
  consistent st -> consistent (doSearch_resume zip r geo st).
Proof.
  intros Hc. destruct geo as [[glat glng]|];
    [|now apply consistent_alert].
  cbn [doSearch_resume]. constructor; cbn.
  - split; discriminate.
  - split; discriminate.
  - discriminate.
  - intros q Hq. apply nearby_In in Hq as [p (Hp & _ & -> & _)].
    exists p. split; [now apply getFilteredPrescribers_incl in Hp|].
    right. now exists glat, glng.
  - intros Hst q Hq. apply nearby_In in Hq as [p (Hp & _ & -> & _)].
    now apply (getFilteredPrescribers_In _ _ p Hst) in Hp.
Qed.

Lemma consistent_applyStateFilter st :
  consistent (applyStateFilter st).
Proof.
  constructor; cbn.
  - easy.
  - easy.
  - unfold getFilteredPrescribers.
    destruct (JS.truthy (stateFilter st)); [discriminate | reflexivity].
  - intros q Hq. exists q. split; [|now left].
    now apply getFilteredPrescribers_incl in Hq.
  - intros Hst q Hq.
    now apply (getFilteredPrescribers_In _ _ q Hst) in Hq.
Qed.

Lemma consistent_reset (st st' : page) :
  searchLat st' = None -> searchLng st' = None ->
  searchCircle st' = None -> stateFilter st' = "" ->
  shown st' = allPrescribers st' ->
  consistent st'.
Proof.
  intros H1 H2 H3 H4 H5. constructor.
  - now rewrite H1, H2.
  - now rewrite H1, H3.
  - intros _. exact H5.
  - rewrite H5. intros q Hq. exists q. auto.
  - rewrite H4. intros []. reflexivity.
Qed.

Lemma consistent_handle e st : consistent st -> consistent (handle e st).
Proof.
  intros Hc. destruct e as [v|v|r|net|zip r geo| |p]; cbn [handle].
  - apply consistent_applyStateFilter.
  - destruct Hc. now constructor.
  - destruct Hc. now constructor.
  - unfold doSearch. destruct (doSearch_begin st) as [st'|[zip r]] eqn:Hb.
    + unfold doSearch_begin in Hb.
      destruct (negb (valid_zip (JS.trim (zipInput st))));
        [|discriminate].
      injection Hb as <-. now apply consistent_alert.
    + now apply consistent_doSearch_resume.
  - now apply consistent_doSearch_resume.
  - now apply (consistent_reset st).
  - unfold selectDoctor. destruct (negb (has_coords p)).
    + now apply consistent_alert.
    + now apply (consistent_reset st).
Qed.

Lemma handle_keeps_list e st :
  allPrescribers (handle e st) = allPrescribers st.
Proof.
  destruct e as [v|v|r|net|zip r geo| |p]; cbn [handle]; try reflexivity.
  - unfold doSearch. destruct (doSearch_begin st) as [st'|[zip r]] eqn:Hb.
    + unfold doSearch_begin in Hb.
      destruct (negb (valid_zip (JS.trim (zipInput st))));
        [|discriminate].
      now injection Hb as <-.
    + now destruct (geocodeZip net zip) as [[glat glng]|].
  - now destruct geo as [[glat glng]|].
  - unfold selectDoctor. now destruct (negb (has_coords p)).
Qed.


(** X13. After any series of events on the loaded page: the list loaded is
    kept; search coordinates and the radius circle are there together or
    not at all; an unfiltered view shows the whole list; every record
    shown is a loaded record, with or without a distance; and while a
    state is selected, every record shown is of that state. *)
Theorem page_stays_consistent
    (prescribers : list prescriber) (radiusMiles : Z)
    (events : list event) :
  let st := run events (loaded prescribers radiusMiles) in
  consistent st /\ allPrescribers st = prescribers.
Proof.
  cbn zeta. unfold run.
  assert (H0 : consistent (loaded prescribers radiusMiles)
               /\ allPrescribers (loaded prescribers radiusMiles)
                  = prescribers).
  { split; [|reflexivity]. now apply (consistent_reset (loaded [] 0)). }
  revert H0. generalize (loaded prescribers radiusMiles).
  induction events as [|e rest IH]; intros st [Hc Ha]; [now split|].
  cbn [fold_left]. apply IH. split.
  - now apply consistent_handle.
  - now rewrite handle_keeps_list.
Qed.


End PageEvents.

(** *** Normalizing a state *)

Section Normalizing.
Import App.

Lemma upper_upper_ascii c :
  JS.upper_ascii (JS.upper_ascii c) = JS.upper_ascii c.
Proof. destruct c as [[] [] [] [] [] [] [] []]; reflexivity. Qed.

Lemma toUpperCase_idem s :
  JS.toUpperCase (JS.toUpperCase s) = JS.toUpperCase s.
Proof.
  unfold JS.toUpperCase. induction s as [|c r IH]; simpl; [reflexivity|].
  now rewrite upper_upper_ascii, IH.
Qed.

Lemma trimStart_idem s : JS.trimStart (JS.trimStart s) = JS.trimStart s.
Proof.
  induction s as [|c r IH]; simpl; [reflexivity|].
  destruct (JS.is_space c) eqn:Hc; [exact IH|]. simpl. now rewrite Hc.
Qed.

Lemma trimStart_length s :
  (String.length (JS.trimStart s) <= String.length s)%nat.
Proof.
  induction s as [|c r IH]; simpl; [lia|].
  destruct (JS.is_space c); simpl; lia.
Qed.

(** A string that [trimStart] leaves alone does not start with a
    space. *)
Lemma trimStart_fixed c r :
  JS.trimStart (String c r) = String c r -> JS.is_space c = false.
Proof.
  simpl. destruct (JS.is_space c); [|reflexivity].
  intros H. pose proof (trimStart_length r) as Hl. rewrite H in Hl.
  simpl in Hl. lia.
Qed.

Lemma trimStart_suffix s : exists pre, s = pre ++ JS.trimStart s.
Proof.
  induction s as [|c r [pre IH]]; simpl; [now exists ""|].
  destruct (JS.is_space c).
  - exists (String c pre). simpl. now rewrite <- IH.
  - now exists "".
Qed.

Lemma list_ascii_of_string_app a b :
  list_ascii_of_string (a ++ b)
  = (list_ascii_of_string a ++ list_ascii_of_string b)%list.
Proof. induction a as [|c a IH]; simpl; [reflexivity | now rewrite IH]. Qed.

Lemma string_of_list_ascii_app l m :
  string_of_list_ascii (l ++ m)
  = string_of_list_ascii l ++ string_of_list_ascii m.
Proof. induction l as [|c l IH]; simpl; [reflexivity | now rewrite IH]. Qed.

Lemma rev_string_app a b :
  JS.rev_string (a ++ b) = JS.rev_string b ++ JS.rev_string a.
Proof.
  unfold JS.rev_string.
  now rewrite list_ascii_of_string_app, rev_app_distr,
    string_of_list_ascii_app.
Qed.

Lemma rev_string_involutive s : JS.rev_string (JS.rev_string s) = s.
Proof.
  unfold JS.rev_string.
  now rewrite list_ascii_of_string_of_list_ascii, rev_involutive,
    string_of_list_ascii_of_string.
Qed.

Lemma trimEnd_prefix s : exists rest, s = JS.trimEnd s ++ rest.
Proof.
  unfold JS.trimEnd.
  destruct (trimStart_suffix (JS.rev_string s)) as [pre H].
  exists (JS.rev_string pre).
  rewrite <- rev_string_app, <- H. symmetry. apply rev_string_involutive.
Qed.

Lemma trimEnd_idem s : JS.trimEnd (JS.trimEnd s) = JS.trimEnd s.
Proof.
  unfold JS.trimEnd. now rewrite rev_string_involutive, trimStart_idem.
Qed.

Lemma trimStart_trimEnd s :
  JS.trimStart s = s -> JS.trimStart (JS.trimEnd s) = JS.trimEnd s.
Proof.
  intros Hs. destruct (trimEnd_prefix s) as [rest Hrest].
  destruct (JS.trimEnd s) as [|c u]; [reflexivity|].
  rewrite Hrest in Hs. simpl in Hs.
  apply trimStart_fixed in Hs. simpl. now rewrite Hs.
Qed.

Lemma trim_idem s : JS.trim (JS.trim s) = JS.trim s.
Proof.
  unfold JS.trim.
  rewrite (trimStart_trimEnd (JS.trimStart s) (trimStart_idem s)).
  apply trimEnd_idem.
Qed.

Lemma VALID_CODES_normalized :
  forallb (fun c => match normalizeState (Some c) with
                    | Some c' => String.eqb c' c
                    | None => false
                    end) VALID_CODES = true.
Proof. vm_compute. reflexivity. Qed.

(** X15. The normalization sees a state only through its trimmed, upper-cased
    text, so case and surrounding spaces do not matter; and it leaves its
    own results as they are. *)
Theorem normalizeState_ignores_case_and_spaces :
  (forall r,
     normalizeState (Some (JS.toUpperCase (JS.trim r)))
     = normalizeState (Some r))
  /\ (forall r,
        normalizeState (Some (JS.toUpperCase r)) = normalizeState (Some r))
  /\ (forall r,
        normalizeState (Some (JS.trim r)) = normalizeState (Some r))
  /\ (forall raw c,
        normalizeState raw = Some c -> normalizeState (Some c) = Some c).
Proof.
  assert (Hkey : forall r r',
            JS.toUpperCase (JS.trim r') = JS.toUpperCase (JS.trim r) ->
            normalizeState (Some r') = normalizeState (Some r)).
  { intros r r' H.
    assert (Hblank : JS.toUpperCase (JS.trim "") = "") by reflexivity.
    assert (Hnone : normalizeState (Some "") = None) by reflexivity.
    assert (Hempty :
      forall x, JS.toUpperCase (JS.trim x) = "" ->
                normalizeState (Some x) = None).
    { intros x Hx. destruct x as [|c x']; [reflexivity|].
      unfold normalizeState. cbn [JS.truthyo JS.truthy negb].
      now rewrite Hx. }
    destruct r as [|c x], r' as [|c' x'].
    - reflexivity.
    - rewrite Hnone. apply Hempty. now rewrite H.
    - rewrite Hnone. symmetry. apply Hempty. now rewrite <- H.
    - unfold normalizeState. cbn [JS.truthyo JS.truthy negb].
      now rewrite H. }
  split; [|split; [|split]].
  - intros r. apply Hkey.
    now rewrite trim_toUpperCase, toUpperCase_idem, trim_idem.
  - intros r. apply Hkey.
    now rewrite trim_toUpperCase, toUpperCase_idem.
  - intros r. apply Hkey. now rewrite trim_idem.
  - intros raw c H. apply normalizeState_code in H as [Hin _].
    pose proof (proj1 (forallb_forall _ _) VALID_CODES_normalized c Hin)
      as Hc. cbn beta in Hc.
    destruct (normalizeState (Some c)) as [c'|]; [|discriminate].
    apply String.eqb_eq in Hc. now subst.
Qed.

Lemma normalizeState_idem_witness :
  normalizeState (Some " new york ") = Some "NY"
  /\ normalizeState (Some "NY") = Some "NY".
Proof.
  assert (H : normalizeState (Some " new york ") = Some "NY")
    by reflexivity.
  split; [exact H|].
  destruct normalizeState_ignores_case_and_spaces as (_ & _ & _ & Hidem).
  exact (Hidem _ _ H).
Defined.

Lemma lookup_Some_In key table v :
  lookup key table = Some v -> In (key, v) table.
Proof.
  induction table as [|[k w] rest IH]; simpl; [discriminate|].
  destruct (String.eqb key k) eqn:He.
  - apply String.eqb_eq in He. subst. intros [= ->]. now left.
  - intros H. right. now apply IH.
Qed.

Lemma STATE_CODES_round_trip :
  forallb (fun entry =>
             match lookup (snd entry) codeToName with
             | Some n => String.eqb n (fst entry)
             | None => false
             end
             && match lookup (fst entry) STATE_CODES with
                | Some c => String.eqb c (snd entry)
                | None => false
                end
             && match normalizeState (Some (fst entry)) with
                | Some c => String.eqb c (snd entry)
                | None => false
                end) STATE_CODES = true.
Proof. vm_compute. reflexivity. Qed.

(** X16. Names and codes go both ways: the name that [codeToName] has for the
    code of a name of [STATE_CODES] is that name, so no two names share a
    code; every option of the state filter has a name for its label; and
    that name normalizes back to the code. *)
Theorem state_names_and_codes_round_trip :
  (forall n c, lookup n STATE_CODES = Some c ->
               lookup c codeToName = Some n)
  /\ (forall all c, In c (populateStateFilter all) ->
        exists n, lookup c codeToName = Some n
                  /\ lookup n STATE_CODES = Some c
                  /\ normalizeState (Some n) = Some c).
Proof.
  assert (Hentry : forall n c, In (n, c) STATE_CODES ->
            lookup c codeToName = Some n
            /\ lookup n STATE_CODES = Some c
            /\ normalizeState (Some n) = Some c).
  { intros n c Hin.
    pose proof (proj1 (forallb_forall _ _) STATE_CODES_round_trip
                  (n, c) Hin) as H.
    cbn [fst snd] in H.
    apply andb_true_iff in H as [H H3].
    apply andb_true_iff in H as [H1 H2].
    destruct (lookup c codeToName) as [n'|]; [|discriminate].
    destruct (lookup n STATE_CODES) as [c'|]; [|discriminate].
    destruct (normalizeState (Some n)) as [c''|]; [|discriminate].
    apply String.eqb_eq in H1, H2, H3. now subst. }
  split.
  - intros n c H. now apply Hentry, lookup_Some_In.
  - intros all c Hc. apply populateStateFilter_In in Hc as [p [_ Hp]].
    apply normalizeState_code in Hp as [Hin _].
    unfold VALID_CODES in Hin. apply in_map_iff in Hin as [[n c'] [Hc' Hin]].
    cbn in Hc'. subst c'. exists n. now apply Hentry.
Qed.

Lemma state_names_and_codes_witness :
  lookup "TX" codeToName = Some "TEXAS".
Proof.
  destruct state_names_and_codes_round_trip as [H _].
  apply H. reflexivity.
Defined.

Lemma unique_NoDup l : forall seen, NoDup (unique seen l).
Proof.
  induction l as [|x r IH]; intros seen; simpl; [constructor|].
  destruct (has seen x); [apply IH|].
  constructor; [|apply IH].
  intros Hx. apply unique_In in Hx as [_ Hx]. apply Hx. now left.
Qed.

(** X17. The options of the state filter list each code once, in ascending
    order. *)
Theorem populateStateFilter_sorted_without_duplicates
    (all : list prescriber) :
  NoDup (populateStateFilter all)
  /\ Sorted (fun a b => String.leb a b = true) (populateStateFilter all).
Proof.
  unfold populateStateFilter. split.
  - eapply Permutation_NoDup; [apply sort_perm | apply unique_NoDup].
  - apply (sort_Sorted _ (fun a b => String.leb a b = true)
             (fun _ => True)).
    + easy.
    + intros a b _ _ Hab.
      destruct (String.leb_total a b) as [H|H]; [congruence | exact H].
    + apply Forall_forall. easy.
Qed.

End Normalizing.

(** *** More on the distance *)

Section DistanceAlongArcs.
Import App.
Local Open Scope R_scope.

Lemma atan2_of_closed_angle (x : R) :
  0 <= x <= PI / 2 ->
  atan2 (sqrt (sin x ^ 2)) (sqrt (1 - sin x ^ 2)) = x.
Proof.
  intros [Hx0 Hx1]. pose proof PI_RGT_0 as Hpi.
  destruct Hx0 as [Hx0 | <-].
  - destruct Hx1 as [Hx1 | ->].
    + apply atan2_of_angle. lra.
    + rewrite sin_PI2. replace (1 ^ 2) with 1 by (simpl; lra).
      replace (1 - 1) with 0 by lra. rewrite sqrt_0, sqrt_1.
      unfold atan2.
      destruct (Rlt_dec 0 0) as [H|_]; [lra|].
      destruct (Rlt_dec 0 0) as [H|_]; [lra|].
      destruct (Rlt_dec 0 1) as [_|H]; [reflexivity | lra].
  - rewrite sin_0. replace (0 ^ 2) with 0 by (simpl; lra).
    replace (1 - 0) with 1 by lra. rewrite sqrt_0, sqrt_1.
    apply atan2_0_1.
Qed.

Lemma sin_sqr_abs (d : R) :
  sin (toRad d / 2) ^ 2 = sin (toRad (Rabs d) / 2) ^ 2.
Proof.
  unfold Rabs. destruct (Rcase_abs d) as [Hneg|Hpos]; [|reflexivity].
  replace (toRad (- d) / 2) with (- (toRad d / 2)) by (unfold toRad; lra).
  rewrite sin_neg. simpl. lra.
Qed.

(** X19. Along a meridian, and along the equator, the distance is the length
    of the arc: 3959 times the difference of the angles in radians, for
    a difference of at most 180 degrees. *)
Theorem haversine_is_arc_length :
  (forall lat1 lat2 lon0,
     Rabs (lat2 - lat1) <= 180 ->
     haversine lat1 lon0 lat2 lon0 = 3959 * toRad (Rabs (lat2 - lat1)))
  /\ (forall lon1 lon2,
        Rabs (lon2 - lon1) <= 180 ->
        haversine 0 lon1 0 lon2 = 3959 * toRad (Rabs (lon2 - lon1))).
Proof.
  pose proof PI_RGT_0 as Hpi.
  assert (Hangle : forall d, Rabs d <= 180 ->
            0 <= toRad (Rabs d) / 2 <= PI / 2).
  { intros d Hd. pose proof (Rabs_pos d) as H0. unfold toRad.
    split; [|nra].
    apply Rmult_le_pos; [|lra]. apply Rmult_le_pos; [|lra].
    apply Rmult_le_pos; lra. }
  split.
  - intros lat1 lat2 lon0 Hd. unfold haversine.
    replace (lon0 - lon0) with 0 by lra. rewrite toRad_0.
    replace (0 / 2) with 0 by lra. rewrite sin_0.
    rewrite (sin_sqr_abs (lat2 - lat1)).
    set (x := toRad (Rabs (lat2 - lat1)) / 2).
    replace (sin x ^ 2 + cos (toRad lat1) * cos (toRad lat2) * 0 ^ 2)
      with (sin x ^ 2) by (simpl; lra).
    rewrite (atan2_of_closed_angle x (Hangle _ Hd)). unfold x. lra.
  - intros lon1 lon2 Hd. unfold haversine.
    replace (0 - 0) with 0 by lra. rewrite toRad_0.
    replace (0 / 2) with 0 by lra. rewrite sin_0, cos_0.
    rewrite (sin_sqr_abs (lon2 - lon1)).
    set (x := toRad (Rabs (lon2 - lon1)) / 2).
    replace (0 ^ 2 + 1 * 1 * sin x ^ 2) with (sin x ^ 2) by (simpl; lra).
    rewrite (atan2_of_closed_angle x (Hangle _ Hd)). unfold x. lra.
Qed.

Lemma haversine_is_arc_length_witness :
  haversine 34 (-118) 36 (-118) = 3959 * toRad (Rabs (36 - 34)).
Proof.
  apply (proj1 haversine_is_arc_length).
  rewrite Rabs_pos_eq; lra.
Defined.

(** X20. A larger radius never loses a record, and a search within a state
    finds no record that the search over all states does not find. *)
Theorem nearby_grows_with_radius
    (all : list prescriber) (st : string) (la lo : R) (r1 r2 : Z) :
  (r1 <= r2)%Z ->
  (forall q, In q (nearby all la lo r1) -> In q (nearby all la lo r2))
  /\ (forall q, In q (nearby (getFilteredPrescribers all st) la lo r1) ->
                In q (nearby all la lo r2)).
Proof.
  intros Hr. apply IZR_le in Hr.
  split; intros q Hq; apply nearby_In in Hq as [p (Hp & Hc & Hq & Hd)];
    apply nearby_In; exists p.
  - repeat split; try assumption. lra.
  - apply getFilteredPrescribers_incl in Hp.
    repeat split; try assumption. lra.
Qed.

Lemma nearby_grows_witness :
  (10 <= 25)%Z
  /\ In (with_distance 34 (-118) PageSamples.ann)
        (nearby PageSamples.roster 34 (-118) 25).
Proof.
  assert (Hr : (10 <= 25)%Z) by lia.
  split; [exact Hr|].
  apply (proj2 (nearby_grows_with_radius
                  PageSamples.roster "CA" 34 (-118) 10 25 Hr)).
  apply nearby_In. exists PageSamples.ann. split.
  - apply getFilteredPrescribers_In; [discriminate|].
    split; [now left | reflexivity].
  - split.
    + unfold has_coords, PageSamples.ann, PageSamples.doctor.
      cbn [lat lng truthy_num].
      destruct (Req_dec_T 34 0); [lra|].
      destruct (Req_dec_T (-118) 0); [lra | reflexivity].
    + split; [reflexivity|].
      cbn [PageSamples.ann PageSamples.doctor lat lng num].
      rewrite haversine_self. lra.
Defined.

End DistanceAlongArcs.
